(** * WebScraper: a shallow embedding of [src/webscraper/scraper.py]

    The development follows the Python source top to bottom:

    - text is a sequence of Unicode code points ([list N]), as a Python
      [str] is; the ASCII range is interpreted concretely and everything the
      [re] module decides by the Unicode database (what [\d], [\w], [\s] and
      case-insensitive comparison accept beyond ASCII) is a parameter;
    - the regular expressions of the six extractors are transcribed as
      abstract syntax and run by a backtracking matcher that returns its
      successes in the order Python's engine explores them;
    - [scrape_page] is the recursive crawl with the object's fields
      ([visited_urls], [results]) passed explicitly, together with the two
      observable effects of the method: the requests it issues and the
      records it sends to the logger;
    - the network, [urlparse] and [urljoin] are parameters. *)

From Stdlib Require Import ZArith NArith List Ascii String Bool Lia.
From stdpp Require Import base gmap sets list.

Open Scope N_scope.

#[local] Set Warnings "-clear-no-such-hyp".
Set Default Proof Using "Type".

(** ** Text *)

(** A Python [str]: a sequence of code points. *)
Abbreviation str := (list N).

Definition ch (a : ascii) : N := N_of_ascii a.

(** A literal of the source, written as a Rocq string of ASCII characters. *)
Definition lit (s : string) : str := map N_of_ascii (list_ascii_of_string s).

Definition ascii_lower (c : N) : N :=
  if (65 <=? c) && (c <=? 90) then c + 32 else c.

Definition ascii_upper (c : N) : N :=
  if (97 <=? c) && (c <=? 122) then c - 32 else c.

Definition is_alpha_ascii (c : N) : bool :=
  ((65 <=? c) && (c <=? 90)) || ((97 <=? c) && (c <=? 122)).

(** [sub in s] on strings. *)
Fixpoint starts_with (sub s : str) : bool :=
  match sub, s with
  | [], _ => true
  | _ :: _, [] => false
  | a :: sub', b :: s' => (a =? b) && starts_with sub' s'
  end.

Fixpoint contains (sub s : str) : bool :=
  starts_with sub s ||
  match s with
  | [] => false
  | _ :: s' => contains sub s'
  end.

(** [list(set(xs))]: the distinct elements of [xs], in an order the program
    does not control. *)
Definition list_set (xs : list str) : list str :=
  elements (list_to_set xs : gset str).

(** ** Regular expressions *)

(** Members of a character class. [CAny] is the class of [.], every
    character but the line feed. *)
Inductive citem : Type :=
| CChar (c : N)
| CRange (lo hi : N)
| CAny
| CDigit
| CWord
| CSpace.

(** The fragment of [re] syntax the extractors use. [Rep r lo hi] is the
    greedy repetition [r{lo,hi}], with [hi = None] for no upper bound, so
    [r?] is [Rep r 0 (Some 1)], [r*] is [Rep r 0 None] and [r+] is
    [Rep r 1 None]. Every group of the source is non-capturing. *)
Inductive regex : Type :=
| Eps
| Cls (items : list citem)
| WordB
| Seq (r1 r2 : regex)
| Alt (r1 r2 : regex)
| Rep (r : regex) (lo : nat) (hi : option nat).

Definition Lit (a : ascii) : regex := Cls [CChar (ch a)].
Definition Uni (c : N) : regex := Cls [CChar c].
Definition Dot : regex := Cls [CAny].
Definition Opt (r : regex) : regex := Rep r 0 (Some 1%nat).
Definition Star (r : regex) : regex := Rep r 0 None.
Definition Plus (r : regex) : regex := Rep r 1 None.
Definition Times (r : regex) (n : nat) : regex := Rep r n (Some n).
Definition range (a b : ascii) : citem := CRange (ch a) (ch b).
Definition chr (a : ascii) : citem := CChar (ch a).

Fixpoint sequence (rs : list regex) : regex :=
  match rs with
  | [] => Eps
  | [r] => r
  | r :: rs' => Seq r (sequence rs')
  end.

Fixpoint either (rs : list regex) : regex :=
  match rs with
  | [] => Cls []
  | [r] => r
  | r :: rs' => Alt r (either rs')
  end.

(** A run of literal characters. *)
Definition word (s : string) : regex :=
  sequence (map (fun a => Cls [CChar (N_of_ascii a)]) (list_ascii_of_string s)).

(** A position inside a match attempt: the characters consumed so far, last
    one first, and the text still ahead. *)
Definition cursor : Type := list N * list N.

(** Whether another round of a repetition is allowed, and the bounds that
    remain after one. *)
Definition may_repeat (hi : option nat) : bool :=
  match hi with
  | Some O => false
  | _ => true
  end.

Definition less_one (hi : option nat) : option nat :=
  match hi with
  | Some n => Some (Nat.pred n)
  | None => None
  end.

(** Greedy repetition: one more round first, stopping second. [fuel] bounds
    the number of rounds. A round of the patterns of the source consumes at
    least one character ([every_round_consumes]), and then any bound above
    the length of the remaining text gives the same successes
    ([rep_fuel]). *)
Fixpoint rep (step : cursor → list cursor) (fuel lo : nat) (hi : option nat)
    (st : cursor) : list cursor :=
  match fuel with
  | O => []
  | S fuel' =>
      (if may_repeat hi
       then st' ← step st; rep step fuel' (Nat.pred lo) (less_one hi) st'
       else [])
      ++ (if lo is O then [st] else [])
  end.

(** The class members that occur in a pattern: a match of the pattern
    consumes no character outside them. *)
Fixpoint alphabet (r : regex) : list citem :=
  match r with
  | Eps | WordB => []
  | Cls items => items
  | Seq r1 r2 | Alt r1 r2 => alphabet r1 ++ alphabet r2
  | Rep r _ _ => alphabet r
  end.

(** Patterns whose every match consumes a character, and patterns in which
    every round of every repetition does. *)
Fixpoint consuming (r : regex) : bool :=
  match r with
  | Eps | WordB => false
  | Cls _ => true
  | Seq r1 r2 => consuming r1 || consuming r2
  | Alt r1 r2 => consuming r1 && consuming r2
  | Rep r lo _ => negb (Nat.eqb lo 0) && consuming r
  end.

Fixpoint rounds_consume (r : regex) : bool :=
  match r with
  | Eps | WordB | Cls _ => true
  | Seq r1 r2 | Alt r1 r2 => rounds_consume r1 && rounds_consume r2
  | Rep r _ _ => consuming r && rounds_consume r
  end.

(** [st'] is [st] moved forward over characters that all satisfy [ok]. *)
Definition advances (ok : N → bool) (st st' : cursor) : Prop :=
  ∃ w, st.2 = w ++ st'.2 ∧ st'.1 = rev w ++ st.1
       ∧ Forall (fun c => ok c = true) w.

(** ** Counting the characters of a match *)

(** The number of characters of [w] that satisfy [p]. *)
Fixpoint count (p : N → bool) (w : list N) : nat :=
  match w with
  | [] => 0
  | c :: w' => (if p c then 1 else 0) + count p w'
  end.

(** A number of characters that every match of [r] takes from classes that
    satisfy [must], and a number that no match exceeds for the classes that
    satisfy [may] ([None] when there is no such number). *)
Fixpoint least (must : list citem → bool) (r : regex) : nat :=
  match r with
  | Eps | WordB => 0
  | Cls items => if must items then 1 else 0
  | Seq r1 r2 => least must r1 + least must r2
  | Alt r1 r2 => Nat.min (least must r1) (least must r2)
  | Rep r lo _ => lo * least must r
  end.

Fixpoint most (may : list citem → bool) (r : regex) : option nat :=
  match r with
  | Eps | WordB => Some 0%nat
  | Cls items => if may items then Some 1%nat else Some 0%nat
  | Seq r1 r2 =>
      match most may r1, most may r2 with
      | Some a, Some b => Some (a + b)%nat
      | _, _ => None
      end
  | Alt r1 r2 =>
      match most may r1, most may r2 with
      | Some a, Some b => Some (Nat.max a b)
      | _, _ => None
      end
  | Rep r _ hi =>
      match most may r, hi with
      | Some O, _ => Some 0%nat
      | Some n, Some h => Some (h * n)%nat
      | _, _ => None
      end
  end.

Definition any_class (items : list citem) : bool := true.

Definition only_digits (items : list citem) : bool :=
  match items with
  | [CDigit] => true
  | _ => false
  end.

Definition only_char (x : N) (items : list citem) : bool :=
  match items with
  | [CChar c] => c =? x
  | _ => false
  end.

(** Classes made of ASCII characters and ranges only. *)
Definition ascii_class (items : list citem) : bool :=
  forallb (fun it => match it with
                     | CChar c => c <? 128
                     | CRange _ hi => hi <? 128
                     | _ => false
                     end) items.

(** [st'] is [st] moved forward over the characters [w]. *)
Definition consumes (st st' : cursor) (w : list N) : Prop :=
  st.2 = w ++ st'.2 ∧ st'.1 = rev w ++ st.1.

(** ** The environment of the program *)

(** What a successful [requests.get] leaves the method to work on:
    [soup.get_text()] and the [href] of every anchor that has one, in
    document order ([soup.find_all('a', href=True)]). *)
Record Page : Type := mkPage {
  text : str;
  hrefs : list str
}.

(** The outcome of a call that may raise: the value, or the exception,
    carried as its message [str(e)]. *)
Variant result (A : Type) : Type :=
| Returns (a : A)
| Raises (msg : str).

Arguments Returns {A} a.
Arguments Raises {A} msg.

(** What [requests.get] returns when it returns: the status code of the
    final response, the message of the [HTTPError] that [raise_for_status]
    raises for it (empty when it raises none), and what
    [BeautifulSoup(response.text, 'html.parser')] and [soup.get_text()]
    give for its body, or the exception that they raise. *)
Record Response : Type := mkResponse {
  status_code : Z;
  http_error_msg : str;
  parsed : result Page
}.

(** [response.raise_for_status()]: the requests library raises [HTTPError]
    for the status codes from 400 to 599, and for no other. *)
Definition raise_for_status (response : Response) : result unit :=
  if (400 <=? status_code response)%Z && (status_code response <? 600)%Z
  then Raises (http_error_msg response)
  else Returns tt.

(** Lines 241 to 244 of [scrape_page] over [get], the [n]-th call of
    [requests.get] with its URL and timeout, which raises when the request
    times out or no connection is made. *)
Definition get_page (get : nat → str → Z → result Response)
    (n : nat) (url : str) (t : Z) : result Page :=
  match get n url t with
  | Raises msg => Raises msg
  | Returns response =>
      match raise_for_status response with
      | Raises msg => Raises msg
      | Returns _ => parsed response
      end
  end.

(** The two fields of [urlparse(url)] that the program reads. *)
Record ParseResult : Type := mkParse {
  scheme : str;
  netloc : str
}.

(** The keys of the dictionary [self.results]. [__init__] creates the seven
    of them and no statement adds or removes a key, so the dictionary is a
    total map on this type. *)
Inductive Category : Type :=
| emails
| phone_numbers
| social_media
| urls
| dates
| addresses
| prices.

Global Instance Category_eq_dec : EqDecision Category.
Proof. solve_decision. Defined.

Definition categories : list Category :=
  [emails; phone_numbers; social_media; urls; dates; addresses; prices].

Variant level : Type := INFO | ERROR.

(** A [WebScraper] object, and what it has done so far: [fetched] lists the
    requests issued, oldest first, each with the [depth] argument of the call
    of [scrape_page] that issued it; [log] lists the records handed to the
    logger, oldest first. *)
Record WebScraper : Type := mkScraper {
  max_depth : Z;
  max_pages : Z;
  timeout : Z;
  visited_urls : gset str;
  results : Category → list str;
  fetched : list (str * Z);
  log : list (level * str)
}.

(** [WebScraper(max_depth, max_pages, timeout)] *)
Definition new (max_depth max_pages timeout : Z) : WebScraper :=
  {| max_depth := max_depth;
     max_pages := max_pages;
     timeout := timeout;
     visited_urls := ∅;
     results := fun _ => [];
     fetched := [];
     log := [] |}.

Definition with_visited (v : gset str) (st : WebScraper) : WebScraper :=
  {| max_depth := max_depth st; max_pages := max_pages st;
     timeout := timeout st; visited_urls := v; results := results st;
     fetched := fetched st; log := log st |}.

Definition with_results (r : Category → list str) (st : WebScraper)
    : WebScraper :=
  {| max_depth := max_depth st; max_pages := max_pages st;
     timeout := timeout st; visited_urls := visited_urls st; results := r;
     fetched := fetched st; log := log st |}.

Definition with_fetched (f : list (str * Z)) (st : WebScraper) : WebScraper :=
  {| max_depth := max_depth st; max_pages := max_pages st;
     timeout := timeout st; visited_urls := visited_urls st;
     results := results st; fetched := f; log := log st |}.

Definition with_log (l : list (level * str)) (st : WebScraper) : WebScraper :=
  {| max_depth := max_depth st; max_pages := max_pages st;
     timeout := timeout st; visited_urls := visited_urls st;
     results := results st; fetched := fetched st; log := l |}.

(** [self.results[key].extend(values)] *)
Definition extend (key : Category) (values : list str)
    (r : Category → list str) : Category → list str :=
  fun k => if decide (k = key) then r k ++ values else r k.

(** [for key in self.results: self.results[key] = list(set(self.results[key]))] *)
Definition remove_duplicates (r : Category → list str) : Category → list str :=
  fun k => list_set (r k).

(** [logger.info], [logger.error] *)
Definition logger (lv : level) (msg : str) (st : WebScraper) : WebScraper :=
  with_log (log st ++ [(lv, msg)]) st.

(** Unicode data, consulted only for code points outside ASCII: the members
    of [\d], [\w] and [\s], what a class member accepts under
    [re.IGNORECASE], and [str.lower()]. *)
Record UnicodeData : Type := mkUnicode {
  unicode_digit : N → bool;
  unicode_word : N → bool;
  unicode_space : N → bool;
  unicode_ignorecase : citem → N → bool;
  unicode_lower : N → str
}.

(** ** The text that [save_results] writes

    [json.dump(self.results, f, indent=2)], and [json.dumps(results,
    indent=2)] in [main]: the encoder of the [json] module on a dictionary
    of lists of strings, with its defaults ([ensure_ascii], separators [,]
    and [: ]). *)

Definition hex_digit (n : N) : N := if n <? 10 then 48 + n else 87 + n.

(** ['{0:04x}'.format(n)], for [n] below 65536. *)
Definition hex4 (n : N) : str :=
  [ hex_digit (n / 4096 mod 16); hex_digit (n / 256 mod 16);
    hex_digit (n / 16 mod 16); hex_digit (n mod 16) ].

(** A backslash, [u] and four hexadecimal digits. *)
Definition u_escape (n : N) : str := 92 :: 117 :: hex4 n.

(** What the encoder writes for one character of a string: the quote, the
    backslash and five control characters have a two-character escape, the
    other characters from the space to the tilde stand for themselves, and
    every other character is written as [\uXXXX], as a surrogate pair
    beyond U+FFFF. *)
Definition escape (c : N) : str :=
  if c =? 34 then [92; 34]
  else if c =? 92 then [92; 92]
  else if c =? 8 then [92; 98]
  else if c =? 12 then [92; 102]
  else if c =? 10 then [92; 110]
  else if c =? 13 then [92; 114]
  else if c =? 9 then [92; 116]
  else if (32 <=? c) && (c <=? 126) then [c]
  else if c <? 65536 then u_escape c
  else u_escape (55296 + ((c - 65536) / 1024) mod 1024)
       ++ u_escape (56320 + (c - 65536) mod 1024).

Definition json_string (s : str) : str :=
  34 :: (c ← s; escape c) ++ [34].

(** [sep.join(parts)] *)
Fixpoint join (sep : str) (parts : list str) : str :=
  match parts with
  | [] => []
  | [part] => part
  | part :: parts' => part ++ sep ++ join sep parts'
  end.

(** A list nested in the dictionary: [[]] when empty, and otherwise one
    value per line, four spaces in. *)
Definition json_list (values : list str) : str :=
  match values with
  | [] => lit "[]"
  | _ :: _ =>
      lit "[" ++ 10 :: lit "    "
      ++ join (lit "," ++ 10 :: lit "    ") (map json_string values)
      ++ 10 :: lit "  ]"
  end.

Definition key_name (k : Category) : string :=
  match k with
  | emails => "emails"
  | phone_numbers => "phone_numbers"
  | social_media => "social_media"
  | urls => "urls"
  | dates => "dates"
  | addresses => "addresses"
  | prices => "prices"
  end.

(** The dictionary, its keys in the order [__init__] inserted them. *)
Definition json_dumps (r : Category → list str) : str :=
  lit "{" ++ 10 :: lit "  "
  ++ join (lit "," ++ 10 :: lit "  ")
       (map (fun k => json_string (lit (key_name k)) ++ lit ": "
                      ++ json_list (r k))
            categories)
  ++ 10 :: lit "}".

(** Code points that a decoded page can hold: below 0x110000 and not one of
    the surrogates U+D800 to U+DFFF. *)
Definition scalar (c : N) : Prop := c < 55296 ∨ 57344 <= c < 1114112.

(** Reading back a string written by [json_string], from the character
    after the opening quote: the string and what follows the closing
    quote. The program has no such reader; this one serves to show that
    [json_string] loses nothing. *)
Definition hex_value (d : N) : N := if d <? 58 then d - 48 else d - 87.

Definition unhex4 (a b c d : N) : N :=
  hex_value a * 4096 + hex_value b * 256 + hex_value c * 16 + hex_value d.

Definition unescaped (e : N) : N :=
  if e =? 98 then 8
  else if e =? 102 then 12
  else if e =? 110 then 10
  else if e =? 114 then 13
  else if e =? 116 then 9
  else e.

Definition cons_to (c : N) (o : option (str * str)) : option (str * str) :=
  match o with
  | Some (s, rest) => Some (c :: s, rest)
  | None => None
  end.

Fixpoint unescape (s : str) : option (str * str) :=
  match s with
  | [] => None
  | c :: s1 =>
      if c =? 34 then Some ([], s1)
      else if c =? 92 then
        match s1 with
        | [] => None
        | e :: s2 =>
            if e =? 117 then
              match s2 with
              | a :: b :: c' :: d :: s3 =>
                  let v := unhex4 a b c' d in
                  if (55296 <=? v) && (v <? 56320) then
                    match s3 with
                    | _ :: _ :: a' :: b' :: c'' :: d' :: s4 =>
                        cons_to (65536 + (v - 55296) * 1024
                                 + (unhex4 a' b' c'' d' - 56320))
                                (unescape s4)
                    | _ => None
                    end
                  else cons_to v (unescape s3)
              | _ => None
              end
            else cons_to (unescaped e) (unescape s2)
        end
      else cons_to c (unescape s1)
  end.


(** The printable ASCII characters, from the space to the tilde, and the
    characters of a file that any tool reads as plain text: those and the
    line feed. *)
Definition printable (c : N) : bool := (32 <=? c) && (c <=? 126).

Definition plain (c : N) : bool := (c =? 10) || printable c.

Definition line_feed (c : N) : bool := c =? 10.

(** One entry of the dictionary: the key, a colon and the list. *)
Definition json_entry (r : Category → list str) (k : Category) : str :=
  json_string (lit (key_name k)) ++ lit ": " ++ json_list (r k).


(** ** A small web to run the program on

    The environment used to evaluate the program on concrete inputs: pages
    of ASCII text, absolute links, and a fixed table of pages. *)
Module Sample.

(** No code point beyond ASCII is a digit, a word character or a space, and
    lowering leaves such code points alone. The texts below are ASCII, so
    this data is never consulted. *)
Definition ascii_only : UnicodeData :=
  {| unicode_digit := fun _ => false;
     unicode_word := fun _ => false;
     unicode_space := fun _ => false;
     unicode_ignorecase := fun _ _ => false;
     unicode_lower := fun c => [c] |}.

Definition is_scheme_char (c : N) : bool :=
  is_alpha_ascii c || ((48 <=? c) && (c <=? 57))
  || (c =? ch "+") || (c =? ch "-") || (c =? ch ".").

(** [s.partition(c)], when [c] occurs. *)
Fixpoint split_on (c : N) (s : str) : option (str * str) :=
  match s with
  | [] => None
  | x :: s' =>
      if x =? c then Some ([], s')
      else match split_on c s' with
           | Some (a, b) => Some (x :: a, b)
           | None => None
           end
  end.

Fixpoint until_delimiter (s : str) : str :=
  match s with
  | [] => []
  | c :: s' =>
      if (c =? ch "/") || (c =? ch "?") || (c =? ch "#") then []
      else c :: until_delimiter s'
  end.

(** [urllib.parse.urlparse] on URLs of printable ASCII characters without
    square brackets, for the two fields read: the scheme is what precedes
    the first colon when that is a letter followed by letters, digits, [+],
    [-] or [.], in lower case; the host is what follows [//], up to the next
    [/], [?] or [#]. *)
Definition urlparse (url : str) : result ParseResult :=
  let (sch, rest) :=
    match split_on (ch ":") url with
    | Some (a :: pre, post) =>
        if is_alpha_ascii a && forallb is_scheme_char pre
        then (map ascii_lower (a :: pre), post)
        else ([], url)
    | _ => ([], url)
    end in
  match rest with
  | 47 :: 47 :: tail => Returns {| scheme := sch; netloc := until_delimiter tail |}
  | _ => Returns {| scheme := sch; netloc := [] |}
  end.

(** [urljoin] on an absolute [http] link such as the ones below gives the
    link back. *)
Definition urljoin (base href : str) : result str := Returns href.

(** A web given by a table of pages; any other URL answers 404, and the
    table does not change over time. *)
Fixpoint page_of (table : list (str * Page)) (url : str) : option Page :=
  match table with
  | [] => None
  | (u, p) :: table' =>
      if bool_decide (u = url) then Some p else page_of table' url
  end.

Definition serve (table : list (str * Page)) (n : nat) (url : str) (t : Z)
    : result Page :=
  match page_of table url with
  | Some p => Returns p
  | None => Raises (lit "404 Client Error: Not Found")
  end.

Definition home : str := lit "http://x.com".
Definition page_a : str := lit "http://x.com/a".
Definition page_b : str := lit "http://x.com/b".

Definition blank : Page := {| text := []; hrefs := [] |}.

(** The home page links to two pages that link nowhere. *)
Definition two_links : list (str * Page) :=
  [ (home, {| text := []; hrefs := [page_a; page_b] |});
    (page_a, blank); (page_b, blank) ].

(** The home page carries the same link twice. *)
Definition repeated_link : list (str * Page) :=
  [ (home, {| text := []; hrefs := [page_a; page_a] |}); (page_a, blank) ].

(** The home page links to ten other pages. *)
Definition ten : list str :=
  map (fun d => lit "http://x.com/" ++ [d]) [48; 49; 50; 51; 52; 53; 54; 55; 56; 57].

Definition ten_links : list (str * Page) :=
  (home, {| text := []; hrefs := ten |}) :: map (fun u => (u, blank)) ten.

(** [urljoin] raises [ValueError] on a link whose host opens a square
    bracket that it does not close. *)
Definition strict_urljoin (base href : str) : result str :=
  if starts_with (lit "http://[") href
  then Raises (lit "Invalid IPv6 URL")
  else Returns href.

Definition bad_href : str := lit "http://[bad".

(** The home page has such a link between two good ones. *)
Definition bad_link : list (str * Page) :=
  [ (home, {| text := []; hrefs := [page_a; bad_href; page_b] |});
    (page_a, blank); (page_b, blank) ].

(** Every output file can be created. *)
Definition writable (output_file : str) : result unit := Returns tt.

(** A page with a contact line. *)
Definition contact : list (str * Page) :=
  [ (home, {| text := lit "Mail bob@x.org before 2024-01-31"; hrefs := [] |}) ].

(** A web given by a table of responses; no connection is made to any
    other URL. *)
Fixpoint response_of (table : list (str * Response)) (url : str)
    : option Response :=
  match table with
  | [] => None
  | (u, r) :: table' =>
      if bool_decide (u = url) then Some r else response_of table' url
  end.

Definition respond (table : list (str * Response)) (n : nat) (url : str)
    (t : Z) : result Response :=
  match response_of table url with
  | Some r => Returns r
  | None => Raises (lit "Connection refused")
  end.

(** No page answers in time. *)
Definition offline (n : nat) (url : str) (t : Z) : result Response :=
  Raises (lit "Read timed out.").

Definition ok (page : Page) : Response :=
  {| status_code := 200; http_error_msg := []; parsed := Returns page |}.

(** Only the second of the two links of the home page answers. *)
Definition one_dead_link : list (str * Response) :=
  [ (home, ok {| text := []; hrefs := [page_a; page_b] |});
    (page_b, ok blank) ].

Definition contact_page : Page :=
  {| text := lit "Mail bob@x.org"; hrefs := [] |}.

(** The home page answers [300 Multiple Choices], without a [Location]
    header to follow, and with a body. *)
Definition multiple_choices : list (str * Response) :=
  [ (home, {| status_code := 300; http_error_msg := [];
              parsed := Returns contact_page |}) ].

(** The home page answers [404 Not Found], with the same body. *)
Definition not_found : list (str * Response) :=
  [ (home, {| status_code := 404;
              http_error_msg :=
                lit "404 Client Error: Not Found for url: http://x.com/";
              parsed := Returns contact_page |}) ].

End Sample.

Section WebScraper.

Variable ucd : UnicodeData.

(** [urlparse(url)] and [urljoin(base, href)]; both raise [ValueError] on
    some inputs. *)
Variable urlparse : str → result ParseResult.
Variable urljoin : str → str → result str.

(** The network as the crawl meets it: what [requests.get(url, timeout)]
    followed by [raise_for_status()] and the parse of the body gives for the
    [n]-th request the object issues. No assumption is made that a URL
    answers the same way twice. *)
Variable requests_get : nat → str → Z → result Page.

(** *** Character classes *)

Definition is_digit (c : N) : bool :=
  if c <? 128 then (48 <=? c) && (c <=? 57) else unicode_digit ucd c.

Definition is_word (c : N) : bool :=
  if c <? 128
  then is_alpha_ascii c || ((48 <=? c) && (c <=? 57)) || (c =? 95)
  else unicode_word ucd c.

(** For a [str] pattern [\s] follows [str.isspace]: in ASCII the characters
    9 to 13, 28 to 31 and the space. *)
Definition is_space (c : N) : bool :=
  if c <? 128
  then ((9 <=? c) && (c <=? 13)) || ((28 <=? c) && (c <=? 31)) || (c =? 32)
  else unicode_space ucd c.

Definition item_exact (it : citem) (c : N) : bool :=
  match it with
  | CChar x => c =? x
  | CRange lo hi => (lo <=? c) && (c <=? hi)
  | CAny => negb (c =? 10)
  | CDigit => is_digit c
  | CWord => is_word c
  | CSpace => is_space c
  end.

(** [ic] is the [re.IGNORECASE] flag of the pattern. *)
Definition item_ok (ic : bool) (it : citem) (c : N) : bool :=
  if ic
  then if c <? 128
       then item_exact it (ascii_lower c) || item_exact it (ascii_upper c)
       else unicode_ignorecase ucd it c
  else item_exact it c.

Definition cls_ok (ic : bool) (items : list citem) (c : N) : bool :=
  existsb (fun it => item_ok ic it c) items.

Definition str_lower (s : str) : str :=
  c ← s; if c <? 128 then [ascii_lower c] else unicode_lower ucd c.

(** *** Matching *)

Definition is_word_at (o : option N) : bool :=
  match o with
  | Some c => is_word c
  | None => false
  end.

(** The character just before the cursor; [prev] is the one before the
    place the attempt started. *)
Definition preceding (prev : option N) (st : cursor) : option N :=
  match st.1 with
  | c :: _ => Some c
  | [] => prev
  end.

(** All the ways [r] matches from [st], in the order a backtracking engine
    tries them: the head is the match [re] reports. *)
Fixpoint matches (ic : bool) (prev : option N) (r : regex) (st : cursor)
    : list cursor :=
  match r with
  | Eps => [st]
  | Cls items =>
      match st.2 with
      | c :: rest => if cls_ok ic items c then [(c :: st.1, rest)] else []
      | [] => []
      end
  | WordB =>
      if xorb (is_word_at (preceding prev st)) (is_word_at (head st.2))
      then [st] else []
  | Seq r1 r2 => st' ← matches ic prev r1 st; matches ic prev r2 st'
  | Alt r1 r2 => matches ic prev r1 st ++ matches ic prev r2 st
  | Rep r lo hi => rep (matches ic prev r) (S (length st.2)) lo hi st
  end.

Definition consumed (st : cursor) : bool :=
  match st.1 with
  | [] => false
  | _ :: _ => true
  end.

(** [re.findall] for a pattern without groups. The scan is written by
    recursion on the text: [skip] counts the characters of the last match
    that are still to step over. A match attempt at a position reports the
    first success; after an empty match the engine retries the same position
    for a match that is not empty, and moves on by one character otherwise. *)
Fixpoint scan (ic : bool) (r : regex) (prev : option N) (s : str)
    (skip : nat) : list str :=
  match skip, s with
  | S k, c :: s' => scan ic r (Some c) s' k
  | S k, [] => []
  | O, _ =>
      let found := matches ic prev r ([], s) in
      let later (k : nat) : list str :=
        match s with
        | c :: s' => scan ic r (Some c) s' k
        | [] => []
        end in
      match found with
      | [] => later O
      | ((_ :: _) as m, _) :: _ => rev m :: later (Nat.pred (length m))
      | ([], _) :: _ =>
          [] :: match filter (fun st => consumed st) found with
                | (m, _) :: _ => rev m :: later (Nat.pred (length m))
                | [] => later O
                end
      end
  end.

Definition findall (ic : bool) (r : regex) (s : str) : list str :=
  scan ic r None s 0.

(** *** The patterns of the extractors *)

Definition digit : regex := Cls [CDigit].
Definition wordchar : regex := Cls [CWord].
Definition space : regex := Cls [CSpace].

(** [[-.\s]] *)
Definition separator : regex := Cls [chr "-"; chr "."; CSpace].

(** [\b[A-Za-z0-9._%+-]+@[A-Za-z0-9.-]+\.[A-Z|a-z]{2,}\b] *)
Definition email_pattern : regex :=
  sequence [ WordB;
        Plus (Cls [range "A" "Z"; range "a" "z"; range "0" "9";
                   chr "."; chr "_"; chr "%"; chr "+"; chr "-"]);
        Lit "@";
        Plus (Cls [range "A" "Z"; range "a" "z"; range "0" "9";
                   chr "."; chr "-"]);
        Lit ".";
        Rep (Cls [range "A" "Z"; chr "|"; range "a" "z"]) 2 None;
        WordB ].

(** [\+?\d{1,3}[-.\s]?\(?\d{3}\)?[-.\s]?\d{3}[-.\s]?\d{4}] *)
Definition phone_international : regex :=
  sequence [ Opt (Lit "+"); Rep digit 1 (Some 3%nat); Opt separator;
        Opt (Lit "("); Times digit 3; Opt (Lit ")"); Opt separator;
        Times digit 3; Opt separator; Times digit 4 ].

(** [\(?\d{3}\)?[-.\s]?\d{3}[-.\s]?\d{4}] *)
Definition phone_us : regex :=
  sequence [ Opt (Lit "("); Times digit 3; Opt (Lit ")"); Opt separator;
        Times digit 3; Opt separator; Times digit 4 ].

(** [\d{4}[-.\s]?\d{3}[-.\s]?\d{3}] *)
Definition phone_alternative : regex :=
  sequence [ Times digit 4; Opt separator; Times digit 3; Opt separator;
        Times digit 3 ].

Definition phone_patterns : list regex :=
  [phone_international; phone_us; phone_alternative].

(** The dictionary [social_patterns], in insertion order. The dots of the
    domain names are not escaped in the source: they match any character. *)
Definition social_patterns : list (str * regex) :=
  [ (lit "twitter",
     sequence [ Alt (Lit "@") (sequence [word "twitter"; Dot; word "com/"]);
           Plus wordchar ]);
    (lit "facebook",
     sequence [ Alt (sequence [word "facebook"; Dot; word "com/"])
               (sequence [word "fb"; Dot; word "com/"]);
           Plus wordchar ]);
    (lit "instagram",
     sequence [ Alt (Lit "@") (sequence [word "instagram"; Dot; word "com/"]);
           Plus wordchar ]);
    (lit "linkedin",
     sequence [ word "linkedin"; Dot; word "com/";
           Alt (word "in") (word "company"); Lit "/";
           Plus (Cls [CWord; chr "-"]) ]);
    (lit "github",
     sequence [ word "github"; Dot; word "com/"; Plus wordchar ]) ].

(** [\d{4}-\d{2}-\d{2}], [\d{2}/\d{2}/\d{4}] and
    [\d{1,2}\s(?:Jan|Feb|Mar|Apr|May|Jun|Jul|Aug|Sep|Oct|Nov|Dec)[a-z]*\s\d{4}] *)
Definition date_patterns : list regex :=
  [ sequence [Times digit 4; Lit "-"; Times digit 2; Lit "-"; Times digit 2];
    sequence [Times digit 2; Lit "/"; Times digit 2; Lit "/"; Times digit 4];
    sequence [ Rep digit 1 (Some 2%nat); space;
          either [ word "Jan"; word "Feb"; word "Mar"; word "Apr"; word "May";
                word "Jun"; word "Jul"; word "Aug"; word "Sep"; word "Oct";
                word "Nov"; word "Dec" ];
          Star (Cls [range "a" "z"]); space; Times digit 4 ] ].

(** [\d+\s+[A-Za-z0-9\s,]+(?:Street|St|Avenue|Ave|Road|Rd|Boulevard|Blvd|Lane|Ln|Drive|Dr)\s*,?\s*[A-Za-z\s]+,\s*[A-Z]{2}\s*\d{5}],
    compiled with [re.IGNORECASE]. *)
Definition address_pattern : regex :=
  sequence [ Plus digit; Plus space;
        Plus (Cls [range "A" "Z"; range "a" "z"; range "0" "9"; CSpace;
                   chr ","]);
        either [ word "Street"; word "St"; word "Avenue"; word "Ave";
              word "Road"; word "Rd"; word "Boulevard"; word "Blvd";
              word "Lane"; word "Ln"; word "Drive"; word "Dr" ];
        Star space; Opt (Lit ","); Star space;
        Plus (Cls [range "A" "Z"; range "a" "z"; CSpace]);
        Lit ","; Star space; Times (Cls [range "A" "Z"]) 2; Star space;
        Times digit 5 ].

(** [(?:USD|\$|€|£)\s*\d+(?:,\d{3})*(?:\.\d{2})?]; the euro sign is U+20AC
    and the pound sign U+00A3. *)
Definition price_pattern : regex :=
  sequence [ either [word "USD"; Lit "$"; Uni 8364; Uni 163];
        Star space; Plus digit;
        Star (sequence [Lit ","; Times digit 3]);
        Opt (sequence [Lit "."; Times digit 2]) ].

Definition all_patterns : list regex :=
  email_pattern :: phone_patterns ++ map snd social_patterns
  ++ date_patterns ++ [address_pattern; price_pattern].

(** *** The extractors *)

Definition extract_emails (text : str) : list str :=
  list_set (findall false email_pattern text).

Definition extract_phone_numbers (text : str) : list str :=
  let numbers := pattern ← phone_patterns; findall false pattern text in
  list_set numbers.

Definition extract_social_media (text : str) (soup_hrefs : list str)
    : list str :=
  let from_text := p ← social_patterns; findall false p.2 text in
  let from_href :=
    filter (fun href =>
              existsb (fun p => contains p.1 (str_lower href))
                      social_patterns = true)
           soup_hrefs in
  list_set (from_text ++ from_href).

Definition extract_dates (text : str) : list str :=
  let dates := pattern ← date_patterns; findall false pattern text in
  list_set dates.

Definition extract_addresses (text : str) : list str :=
  list_set (findall true address_pattern text).

Definition extract_prices (text : str) : list str :=
  list_set (findall false price_pattern text).

(** *** The crawl *)

Definition is_valid_url (url : str) : bool :=
  match urlparse url with
  | Returns r =>
      (bool_decide (scheme r = lit "http")
       || bool_decide (scheme r = lit "https"))
      && negb (bool_decide (netloc r = []))
  | Raises _ => false
  end.

(** The six [extend] statements of [scrape_page] and the loop that removes
    duplicates after them. *)
Definition extract (page : Page) (r : Category → list str)
    : Category → list str :=
  let r := extend emails (extract_emails (text page)) r in
  let r := extend phone_numbers (extract_phone_numbers (text page)) r in
  let r :=
    extend social_media (extract_social_media (text page) (hrefs page)) r in
  let r := extend dates (extract_dates (text page)) r in
  let r := extend addresses (extract_addresses (text page)) r in
  let r := extend prices (extract_prices (text page)) r in
  remove_duplicates r.

(** The loop [for link in links] of the page at [url]; [visit] is the
    recursive call [self.scrape_page(next_url, depth + 1)]. The loop ends
    early, with the exception, when [urljoin] raises. *)
Fixpoint follow_links (visit : WebScraper → str → WebScraper) (url : str)
    (st : WebScraper) (links : list str) : WebScraper * option str :=
  match links with
  | [] => (st, None)
  | href :: rest =>
      match urljoin url href with
      | Raises msg => (st, Some msg)
      | Returns next_url =>
          if is_valid_url next_url
          then
            let st := with_results (extend urls [next_url] (results st)) st in
            let st := visit st next_url in
            follow_links visit url st rest
          else follow_links visit url st rest
      end
  end.

(** The body of the [try] statement: the state it leaves and the exception
    it ends with, if any. *)
Definition try_body (visit : WebScraper → str → WebScraper) (st : WebScraper)
    (url : str) (depth : Z) : WebScraper * option str :=
  let answer := requests_get (length (fetched st)) url (timeout st) in
  let st := with_fetched (fetched st ++ [(url, depth)]) st in
  match answer with
  | Raises msg => (st, Some msg)
  | Returns page =>
      let st := with_results (extract page (results st)) st in
      if (depth <? max_depth st)%Z
         && (Z.of_nat (size (visited_urls st)) <? max_pages st)%Z
      then follow_links visit url st (hrefs page)
      else (st, None)
  end.

(** [scrape_page], by recursion on a bound for the number of nested calls.
    A nested call has [depth + 1] and a call with [depth >= max_depth]
    returns at once, so [max_depth - depth] nested calls are never exceeded
    and the branch for an exhausted bound is dead ([scrape_page_rec_fuel],
    [scrape_page_eq]). The recursion limit of the interpreter is not part of
    the model. *)
Fixpoint scrape_page_rec (fuel : nat) (st : WebScraper) (url : str)
    (depth : Z) : WebScraper :=
  if negb (is_valid_url url)
     || (depth >=? max_depth st)%Z
     || bool_decide (url ∈ visited_urls st)
  then st
  else
    match fuel with
    | O => st
    | S fuel' =>
        let st := with_visited ({[url]} ∪ visited_urls st) st in
        let visit st' next_url := scrape_page_rec fuel' st' next_url (depth + 1) in
        match try_body visit st url depth with
        | (st, None) => st
        | (st, Some e) =>
            logger ERROR (lit "Error scraping " ++ url ++ lit ": " ++ e) st
        end
    end.

Definition scrape_page (st : WebScraper) (url : str) (depth : Z) : WebScraper :=
  scrape_page_rec (Z.to_nat (max_depth st - depth)) st url depth.

(** [scrape(start_url)], without an output file: the object afterwards and
    the dictionary returned. *)
Definition scrape (st : WebScraper) (start_url : str)
    : WebScraper * (Category → list str) :=
  let st := logger INFO (lit "Starting scrape from: " ++ start_url) st in
  let st := scrape_page st start_url 0 in
  (st, results st).

(** Several calls of [scrape] on one object, one seed after the other. *)
Definition crawls (st : WebScraper) (seeds : list str) : WebScraper :=
  foldl (fun st seed => (scrape st seed).1) st seeds.

(** [st'] is what [st] may become while a call of [scrape_page] at depth [d]
    runs: the configuration is kept; the requests issued since are for
    valid, distinct URLs that were not visited, at depths from [d] up to
    [max_depth] excluded, and they are what was added to the visited set;
    no value leaves a category; the log only grows. *)
Record extends (d : Z) (st st' : WebScraper) : Prop := {
  ext_max_depth : max_depth st' = max_depth st;
  ext_max_pages : max_pages st' = max_pages st;
  ext_timeout : timeout st' = timeout st;
  ext_fetched :
    ∃ issued : list (str * Z),
      fetched st' = fetched st ++ issued
      ∧ NoDup (issued.*1)
      ∧ visited_urls st' = visited_urls st ∪ list_to_set (issued.*1)
      ∧ ∀ u d', (u, d') ∈ issued →
          (u ∉ visited_urls st) ∧ is_valid_url u = true
          ∧ (d ≤ d' < max_depth st)%Z;
  ext_results : ∀ k v, v ∈ results st k → v ∈ results st' k;
  ext_log : ∃ more, log st' = log st ++ more
}.

(** The visited set is the set of the URLs requested, each requested once. *)
Definition fetched_once (st : WebScraper) : Prop :=
  NoDup ((fetched st).*1) ∧ visited_urls st = list_to_set ((fetched st).*1).

(** The six categories that only the extractors fill hold no value twice. *)
Definition extracted_once (st : WebScraper) : Prop :=
  ∀ k, k ≠ urls → NoDup (results st k).

(** With [seeds] the URLs that [scrape] was called on: every request was
    for a seed, at depth 0, or for a URL recorded in [urls]; [urls] holds
    only URLs that [is_valid_url] accepts; and every record at level ERROR
    is the message of [scrape_page] for a URL that was requested. *)
Definition accounted (seeds : list str) (st : WebScraper) : Prop :=
  (∀ u d, (u, d) ∈ fetched st →
     (d = 0%Z ∧ u ∈ seeds) ∨ u ∈ results st urls)
  ∧ (∀ v, v ∈ results st urls → is_valid_url v = true)
  ∧ (∀ msg, (ERROR, msg) ∈ log st →
       ∃ u e, u ∈ (fetched st).*1
              ∧ msg = lit "Error scraping " ++ u ++ lit ": " ++ e).

(** What a call [scrape_page(url, depth)] is made on: a seed at depth 0, or
    a URL that has just been recorded in [urls]. *)
Definition called_on (seeds : list str) (st : WebScraper) (url : str)
    (depth : Z) : Prop :=
  (depth = 0%Z ∧ url ∈ seeds) ∨ url ∈ results st urls.

(** *** Saving the results *)

(** [save_results(output_file)]: the object afterwards and the file written,
    as the name given (which [Path] may still normalise) and its text, or
    the exception, which finds the object as it was. [open_for_writing]
    stands for
    [output_path.parent.mkdir(parents=True, exist_ok=True)] followed by
    [open(output_path, 'w', encoding='utf-8')]: the operating system lets
    the file be created, or raises [OSError]. A write that fails once the
    file is open is not part of the model. *)
Definition save_results (open_for_writing : str → result unit)
    (st : WebScraper) (output_file : str)
    : result (WebScraper * (str * str)) :=
  match open_for_writing output_file with
  | Raises e => Raises e
  | Returns _ =>
      Returns (logger INFO (lit "Results saved to: " ++ output_file) st,
               (output_file, json_dumps (results st)))
  end.

(** [scrape(start_url, output_file)]: the object afterwards, and either the
    dictionary returned with the file written, if any, or the exception of
    [save_results], which leaves the method. The test [if output_file:] is
    false for [None] and for the empty string. *)
Definition scrape_to (open_for_writing : str → result unit)
    (st : WebScraper) (start_url : str) (output_file : option str)
    : WebScraper * result ((Category → list str) * option (str * str)) :=
  let st := (scrape st start_url).1 in
  match output_file with
  | Some (c :: name) =>
      match save_results open_for_writing st (c :: name) with
      | Returns (st', file) => (st', Returns (results st', Some file))
      | Raises e => (st, Raises e)
      end
  | _ => (st, Returns (results st, None))
  end.

(** ** Properties of the matcher *)

Lemma advances_refl ok st : advances ok st st.
Proof. by exists []. Qed.

Lemma advances_trans ok st1 st2 st3 :
  advances ok st1 st2 → advances ok st2 st3 → advances ok st1 st3.
Proof.
  intros (w1 & H1 & H1' & Hw1) (w2 & H2 & H2' & Hw2). exists (w1 ++ w2).
  split_and!.
  - by rewrite H1, H2, <- app_assoc.
  - by rewrite H2', H1', rev_app_distr, <- app_assoc.
  - by apply Forall_app.
Qed.

Lemma advances_mono (ok ok' : N → bool) st st' :
  (∀ c, ok c = true → ok' c = true) → advances ok st st' → advances ok' st st'.
Proof.
  intros H (w & ? & ? & Hw). exists w. split_and!; [done..|].
  eapply Forall_impl; [exact Hw|]. done.
Qed.

Lemma cls_ok_app ic l1 l2 c :
  cls_ok ic (l1 ++ l2) c = cls_ok ic l1 c || cls_ok ic l2 c.
Proof. apply existsb_app. Qed.

Lemma rep_advances ok step :
  (∀ st st', st' ∈ step st → advances ok st st') →
  ∀ fuel lo hi st st', st' ∈ rep step fuel lo hi st → advances ok st st'.
Proof.
  intros Hstep. induction fuel as [|fuel IH]; intros lo hi st st'; simpl.
  - by intros ?%elem_of_nil.
  - intros [Hin|Hin]%elem_of_app.
    + destruct (may_repeat hi); [|by apply elem_of_nil in Hin].
      apply list_elem_of_bind in Hin as (mid & Hin & Hmid).
      eapply advances_trans; [by apply Hstep|by eapply IH].
    + destruct lo; [|by apply elem_of_nil in Hin].
      apply list_elem_of_singleton in Hin as ->. apply advances_refl.
Qed.

(** A match consumes only characters of the alphabet of its pattern. *)
Lemma matches_advances ic prev r :
  ∀ st st', st' ∈ matches ic prev r st →
    advances (cls_ok ic (alphabet r)) st st'.
Proof.
  induction r as [|items| |r1 IH1 r2 IH2|r1 IH1 r2 IH2|r IH lo hi];
    intros st st'; simpl.
  - intros ->%list_elem_of_singleton. apply advances_refl.
  - destruct st as [acc [|c rest]]; simpl; [by intros ?%elem_of_nil|].
    destruct (cls_ok ic items c) eqn:Hc; [|by intros ?%elem_of_nil].
    intros ->%list_elem_of_singleton. exists [c]. split_and!; [done..|].
    by constructor.
  - destruct (xorb _ _); [|by intros ?%elem_of_nil].
    intros ->%list_elem_of_singleton. apply advances_refl.
  - intros (mid & Hin & Hmid)%list_elem_of_bind.
    eapply advances_trans.
    + eapply advances_mono; [|by apply IH1].
      intros c Hc. by rewrite cls_ok_app, Hc.
    + eapply advances_mono; [|by apply IH2].
      intros c Hc. by rewrite cls_ok_app, Hc, orb_true_r.
  - intros [Hin|Hin]%elem_of_app.
    + eapply advances_mono; [|by apply IH1].
      intros c Hc. by rewrite cls_ok_app, Hc.
    + eapply advances_mono; [|by apply IH2].
      intros c Hc. by rewrite cls_ok_app, Hc, orb_true_r.
  - intros Hin.
    apply (rep_advances _ _ IH (S (length st.2)) lo hi). exact Hin.
Qed.

Lemma advances_length ok st st' :
  advances ok st st' → (length st'.2 ≤ length st.2)%nat.
Proof. intros (w & -> & _ & _). rewrite length_app. lia. Qed.

(** *** The bound on the rounds of a repetition is never exhausted *)

Lemma consuming_shrinks ic prev r :
  consuming r = true →
  ∀ st st', st' ∈ matches ic prev r st → (length st'.2 < length st.2)%nat.
Proof.
  induction r as [|items| |r1 IH1 r2 IH2|r1 IH1 r2 IH2|r IH lo hi];
    simpl; try done; intros Hc st st'.
  - destruct st as [acc [|c rest]]; simpl; [by intros ?%elem_of_nil|].
    destruct (cls_ok ic items c); [|by intros ?%elem_of_nil].
    intros ->%list_elem_of_singleton. simpl. lia.
  - intros (mid & Hin & Hmid)%list_elem_of_bind.
    pose proof (advances_length _ _ _ (matches_advances ic prev r1 _ _ Hmid)).
    pose proof (advances_length _ _ _ (matches_advances ic prev r2 _ _ Hin)).
    apply orb_true_iff in Hc as [Hc|Hc].
    + specialize (IH1 Hc _ _ Hmid). lia.
    + specialize (IH2 Hc _ _ Hin). lia.
  - apply andb_true_iff in Hc as [Hc1 Hc2].
    intros [Hin|Hin]%elem_of_app; [by apply IH1|by apply IH2].
  - apply andb_true_iff in Hc as [Hlo Hc].
    destruct lo as [|lo]; [done|]. simpl.
    rewrite app_nil_r. destruct (may_repeat hi); [|by intros ?%elem_of_nil].
    intros (mid & Hin & Hmid)%list_elem_of_bind.
    specialize (IH Hc _ _ Hmid).
    pose proof (advances_length _ _ _
                  (rep_advances _ _ (matches_advances ic prev r) _ _ _ _ _ Hin)).
    lia.
Qed.

Lemma rep_fuel (step : cursor → list cursor) :
  (∀ st st', st' ∈ step st → (length st'.2 < length st.2)%nat) →
  ∀ n m lo hi st,
    (length st.2 < n)%nat → (length st.2 < m)%nat →
    rep step n lo hi st = rep step m lo hi st.
Proof.
  intros Hstep. induction n as [|n IH]; intros m lo hi st Hn Hm; [lia|].
  destruct m as [|m]; [lia|]. simpl. f_equal.
  destruct (may_repeat hi); [|done].
  assert (Forall (fun st' => (length st'.2 < length st.2)%nat) (step st)) as Hall
    by (apply Forall_forall; intros st' Hin; by apply Hstep).
  induction Hall as [|st' l Hst' _ IHl]; [done|].
  rewrite !bind_cons, IHl. f_equal. apply IH; lia.
Qed.

(** In the patterns of the source every round of a repetition consumes a
    character, so [matches] gives them all the rounds they can use. *)
Lemma every_round_consumes : forallb rounds_consume all_patterns = true.
Proof. reflexivity. Qed.

Lemma matches_rep_fuel ic prev r lo hi st n :
  consuming r = true → (length st.2 < n)%nat →
  matches ic prev (Rep r lo hi) st = rep (matches ic prev r) n lo hi st.
Proof.
  intros Hc Hn.
  change (matches ic prev (Rep r lo hi) st)
    with (rep (matches ic prev r) (S (length st.2)) lo hi st).
  apply rep_fuel; [|lia|done]. by apply consuming_shrinks.
Qed.

(** Characters that all satisfy [ok] stop before one that does not. *)
Lemma stops_at_barrier (ok : N → bool) b s2 :
  ok b = false →
  ∀ s1 w rest, s1 ++ b :: s2 = w ++ rest → Forall (fun c => ok c = true) w →
    (length w ≤ length s1)%nat.
Proof.
  intros Hb. induction s1 as [|c s1 IH]; intros w rest Heq Hw.
  - destruct w as [|x w]; [done|]. simpl in Heq. injection Heq as <- _.
    apply Forall_cons in Hw as [Hx _]. congruence.
  - destruct w as [|x w]; simpl; [lia|]. simpl in Heq. injection Heq as _ Heq.
    apply Forall_cons in Hw as [_ Hw]. specialize (IH _ _ Heq Hw). lia.
Qed.

Lemma match_stops_at_barrier ic prev r b s1 s2 m rest :
  cls_ok ic (alphabet r) b = false →
  (m, rest) ∈ matches ic prev r ([], s1 ++ b :: s2) →
  (length m ≤ length s1)%nat.
Proof.
  intros Hb (w & Hs & Hm & Hw)%matches_advances. simpl in Hs, Hm.
  rewrite Hm, app_nil_r, length_rev.
  by eapply (stops_at_barrier _ b s2 Hb s1 w rest).
Qed.

(** [scan] at a position where no match starts, and where one does. *)
Lemma scan_miss ic r prev c s :
  matches ic prev r ([], c :: s) = [] →
  scan ic r prev (c :: s) 0 = scan ic r (Some c) s 0.
Proof. intros H. simpl. by rewrite H. Qed.

Lemma scan_hit ic r prev s c m rest others :
  matches ic prev r ([], s) = (c :: m, rest) :: others →
  rev (c :: m) ∈ scan ic r prev s 0.
Proof. intros H. destruct s; simpl; rewrite H; by left. Qed.

(** Whatever precedes a character that the pattern cannot consume, the scan
    reaches the position after that character with nothing left to step
    over: the text before it only adds matches in front. *)
Lemma first_consumed (found : list cursor) m rest others :
  filter (fun st : cursor => consumed st) found = (m, rest) :: others →
  (m, rest) ∈ found ∧ m ≠ [].
Proof.
  intros Hf.
  assert ((m, rest) ∈ filter (fun st : cursor => consumed st) found) as Hin
    by (rewrite Hf; by left).
  apply list_elem_of_filter in Hin as [Hc Hin]. split; [done|].
  by destruct m.
Qed.

Lemma scan_to_barrier ic r b s2 :
  cls_ok ic (alphabet r) b = false →
  ∀ s1 prev skip, (skip ≤ length s1)%nat →
    ∃ out, scan ic r prev (s1 ++ b :: s2) skip
           = out ++ scan ic r (Some b) s2 0.
Proof.
  intros Hb. induction s1 as [|c s1 IH]; intros prev skip Hskip.
  - destruct skip; [|simpl in Hskip; lia].
    pose proof (fun m rest => match_stops_at_barrier ic prev r b [] s2 m rest Hb)
      as Hlen.
    change ([] ++ b :: s2) with (b :: s2) in *. cbn [scan].
    destruct (matches ic prev r ([], b :: s2)) as [|[[|x m] rest] found].
    + by exists [].
    + exists [[]]. cbn [app]. f_equal.
      destruct (filter _ _) as [|[m' rest'] others] eqn:Hf; [done|].
      apply first_consumed in Hf as [Hin Hm'].
      specialize (Hlen _ _ Hin).
      destruct m'; [done|simpl in Hlen; lia].
    + assert (length (x :: m) ≤ length (@nil N))%nat as Hle
        by (apply (Hlen _ rest); by left).
      simpl in Hle. lia.
  - destruct skip as [|k].
    + pose proof (fun m rest =>
                    match_stops_at_barrier ic prev r b (c :: s1) s2 m rest Hb)
        as Hlen.
      change ((c :: s1) ++ b :: s2) with (c :: (s1 ++ b :: s2)) in *.
      cbn [scan].
      destruct (matches ic prev r ([], c :: s1 ++ b :: s2))
        as [|[[|x m] rest] found].
      * destruct (IH (Some c) 0%nat) as [out ->]; [lia|]. by exists out.
      * destruct (filter _ _) as [|[m' rest'] others] eqn:Hf.
        -- destruct (IH (Some c) 0%nat) as [out ->]; [lia|]. by exists ([] :: out).
        -- apply first_consumed in Hf as [Hin _].
           specialize (Hlen _ _ Hin). simpl in Hlen.
           destruct (IH (Some c) (Nat.pred (length m'))) as [out ->]; [lia|].
           by exists ([] :: rev m' :: out).
      * assert (length (x :: m) ≤ length (c :: s1))%nat as Hle
          by (apply (Hlen _ rest); by left).
        simpl in Hle.
        destruct (IH (Some c) (Nat.pred (length (x :: m)))) as [out ->];
          [simpl; lia|].
        by exists (rev (x :: m) :: out).
    + simpl in Hskip. simpl. destruct (IH (Some c) k) as [out ->]; [lia|].
      by exists out.
Qed.

(** ** Properties of the crawl *)

Lemma extends_refl d st : extends d st st.
Proof.
  split; try done.
  - exists []. rewrite app_nil_r. split_and!; [done|apply NoDup_nil_2|simpl; by rewrite union_empty_r_L|].
    intros u d' H. by apply elem_of_nil in H.
  - exists []. by rewrite app_nil_r.
Qed.

Lemma extends_weaken d d' st st' :
  (d ≤ d')%Z → extends d' st st' → extends d st st'.
Proof.
  intros Hd [Hmd Hmp Ht (issued & Hf & Hnd & Hv & Hi) Hr Hl].
  split; try done.
  exists issued. split_and!; try done.
  intros u d0 Hin. destruct (Hi u d0 Hin) as (? & ? & ?). split_and!; [done..|lia|lia].
Qed.

Lemma extends_trans d st1 st2 st3 :
  extends d st1 st2 → extends d st2 st3 → extends d st1 st3.
Proof.
  intros [Hmd Hmp Ht (i1 & Hf1 & Hnd1 & Hv1 & Hi1) Hr1 (m1 & Hl1)]
         [Hmd' Hmp' Ht' (i2 & Hf2 & Hnd2 & Hv2 & Hi2) Hr2 (m2 & Hl2)].
  split; try congruence.
  - exists (i1 ++ i2). split_and!.
    + by rewrite Hf2, Hf1, <- app_assoc.
    + rewrite fmap_app. apply NoDup_app. split_and!; try done.
      intros u Hu1 Hu2.
      apply list_elem_of_fmap in Hu2 as ([u' d'] & -> & Hin).
      destruct (Hi2 _ _ Hin) as (Hnv & _). apply Hnv. rewrite Hv1.
      apply elem_of_union_r, elem_of_list_to_set. done.
    + by rewrite Hv2, Hv1, fmap_app, list_to_set_app_L, (assoc_L (∪)).
    + intros u d' [Hin|Hin]%elem_of_app.
      * by apply Hi1.
      * destruct (Hi2 _ _ Hin) as (Hnv & Hval & Hd). split_and!; try done.
        -- intros Hu. apply Hnv. rewrite Hv1. by apply elem_of_union_l.
        -- lia.
        -- lia.
  - intros k v Hv. by apply Hr2, Hr1.
  - exists (m1 ++ m2). by rewrite Hl2, Hl1, <- app_assoc.
Qed.

Lemma list_set_elem (xs : list str) (v : str) : v ∈ list_set xs ↔ v ∈ xs.
Proof. unfold list_set. by rewrite elem_of_elements, elem_of_list_to_set. Qed.

Lemma list_set_NoDup (xs : list str) : NoDup (list_set xs).
Proof. unfold list_set. apply NoDup_elements. Qed.

Lemma extend_elem key vs (r : Category → list str) k v :
  v ∈ extend key vs r k ↔ v ∈ r k ∨ (k = key ∧ v ∈ vs).
Proof.
  clear ucd urlparse urljoin requests_get.
  unfold extend. case_decide; [rewrite elem_of_app|]; naive_solver.
Qed.

Lemma remove_duplicates_elem (r : Category → list str) k v :
  v ∈ remove_duplicates r k ↔ v ∈ r k.
Proof. apply list_set_elem. Qed.

Lemma extract_mono page (r : Category → list str) k v :
  v ∈ r k → v ∈ extract page r k.
Proof.
  intros H. unfold extract. apply remove_duplicates_elem.
  repeat (apply extend_elem; left). done.
Qed.

Lemma extends_results d st r :
  (∀ k v, v ∈ results st k → v ∈ r k) → extends d st (with_results r st).
Proof.
  intros H. split; try done.
  - exists []. simpl. rewrite app_nil_r. split_and!; [done|apply NoDup_nil_2|simpl; by rewrite union_empty_r_L|].
    intros u d' Hin. by apply elem_of_nil in Hin.
  - exists []. simpl. by rewrite app_nil_r.
Qed.

Lemma extends_logger d lv msg st : extends d st (logger lv msg st).
Proof.
  split; try done.
  - exists []. simpl. rewrite app_nil_r. split_and!; [done|apply NoDup_nil_2|simpl; by rewrite union_empty_r_L|].
    intros u d' Hin. by apply elem_of_nil in Hin.
  - by exists [(lv, msg)].
Qed.

(** Marking [url] visited and requesting it. *)
Lemma extends_request st url depth :
  is_valid_url url = true → (depth < max_depth st)%Z →
  url ∉ visited_urls st →
  extends depth st
    (with_fetched (fetched st ++ [(url, depth)])
       (with_visited ({[url]} ∪ visited_urls st) st)).
Proof.
  intros Hval Hd Hnv. split; try done.
  - exists [(url, depth)]. simpl. split_and!;
      [done| |by rewrite union_empty_r_L, (comm_L (∪))|].
    + apply NoDup_singleton.
    + intros u d' Hin. apply list_elem_of_singleton in Hin.
      injection Hin as -> ->. split_and!; [done..|lia|lia].
  - exists []. simpl. by rewrite app_nil_r.
Qed.

Lemma follow_links_extends d visit url links :
  (∀ st u, extends d st (visit st u)) →
  ∀ st, extends d st (follow_links visit url st links).1.
Proof.
  intros Hvisit. induction links as [|href rest IH]; intros st; simpl.
  - apply extends_refl.
  - destruct (urljoin url href) as [next_url|msg]; simpl; [|apply extends_refl].
    destruct (is_valid_url next_url); [|apply IH].
    eapply extends_trans; [|eapply extends_trans; [apply Hvisit|apply IH]].
    apply extends_results. intros k v Hv. apply extend_elem. by left.
Qed.

Lemma try_body_extends visit st url depth :
  (∀ st' u, extends (depth + 1) st' (visit st' u)) →
  is_valid_url url = true → (depth < max_depth st)%Z →
  url ∉ visited_urls st →
  extends depth st
    (try_body visit (with_visited ({[url]} ∪ visited_urls st) st) url depth).1.
Proof.
  intros Hvisit Hval Hd Hnv. unfold try_body. cbn [fetched timeout with_visited].
  eapply extends_trans; [by apply extends_request|].
  destruct (requests_get _ _ _) as [page|msg]; [|apply extends_refl].
  set (st1 := with_fetched _ _).
  eapply extends_trans.
  { apply (extends_results depth st1 (extract page (results st1))).
    intros k v. apply extract_mono. }
  destruct (_ && _); [|apply extends_refl].
  apply follow_links_extends. intros st' u.
  eapply extends_weaken; [|apply Hvisit]. lia.
Qed.

(** What a call of [scrape_page] may do to the object, whatever the bound. *)
Lemma scrape_page_rec_extends fuel :
  ∀ st url depth, extends depth st (scrape_page_rec fuel st url depth).
Proof.
  induction fuel as [|fuel IH]; intros st url depth; simpl.
  - destruct (_ || _); apply extends_refl.
  - destruct (negb (is_valid_url url)) eqn:Hval; [apply extends_refl|].
    destruct (depth >=? max_depth st)%Z eqn:Hd; [apply extends_refl|].
    case_bool_decide as Hv; [apply extends_refl|]. simpl.
    apply negb_false_iff in Hval. rewrite Z.geb_leb in Hd. apply Z.leb_gt in Hd.
    pose proof (try_body_extends
                  (fun st' next_url => scrape_page_rec fuel st' next_url (depth + 1))
                  st url depth (fun st' u => IH st' u (depth + 1)%Z) Hval Hd Hv) as H.
    destruct (try_body _ _ _ _) as [st' [e|]]; simpl in H; [|done].
    eapply extends_trans; [exact H|apply extends_logger].
Qed.

Lemma scrape_page_extends st url depth :
  extends depth st (scrape_page st url depth).
Proof. apply scrape_page_rec_extends. Qed.

(** *** The bound of [scrape_page_rec] is never exhausted *)

Lemma follow_links_ext md visit1 visit2 url links :
  (∀ st u, max_depth st = md → visit1 st u = visit2 st u) →
  (∀ st u, max_depth (visit1 st u) = max_depth st) →
  ∀ st, max_depth st = md →
    follow_links visit1 url st links = follow_links visit2 url st links.
Proof.
  intros Heq Hmd. induction links as [|href rest IH]; intros st Hst; simpl; [done|].
  destruct (urljoin url href) as [next_url|msg]; [|done].
  destruct (is_valid_url next_url); [|by apply IH].
  rewrite <- Heq by done. apply IH. by rewrite Hmd.
Qed.

Lemma try_body_ext visit1 visit2 st url depth :
  (∀ st' u, max_depth st' = max_depth st → visit1 st' u = visit2 st' u) →
  (∀ st' u, max_depth (visit1 st' u) = max_depth st') →
  try_body visit1 st url depth = try_body visit2 st url depth.
Proof.
  intros Heq Hmd. unfold try_body.
  destruct (requests_get _ _ _) as [page|msg]; [|done].
  destruct (_ && _); [|done].
  by apply (follow_links_ext (max_depth st)).
Qed.

Lemma scrape_page_rec_max_depth fuel st url depth :
  max_depth (scrape_page_rec fuel st url depth) = max_depth st.
Proof. apply (scrape_page_rec_extends fuel st url depth). Qed.

Lemma scrape_page_rec_fuel n :
  ∀ m st url depth,
    (Z.to_nat (max_depth st - depth) ≤ n)%nat →
    (Z.to_nat (max_depth st - depth) ≤ m)%nat →
    scrape_page_rec n st url depth = scrape_page_rec m st url depth.
Proof.
  induction n as [|n IH]; intros m st url depth Hn Hm.
  - destruct m; simpl; [done|].
    destruct (negb (is_valid_url url)); [done|].
    destruct (depth >=? max_depth st)%Z eqn:Hd; [done|].
    rewrite Z.geb_leb in Hd. apply Z.leb_gt in Hd. lia.
  - simpl. destruct (negb (is_valid_url url)) eqn:Hval.
    { destruct m; simpl; by rewrite Hval. }
    destruct (depth >=? max_depth st)%Z eqn:Hd.
    { destruct m; simpl; by rewrite Hval, Hd. }
    pose proof Hd as Hd'. rewrite Z.geb_leb in Hd'. apply Z.leb_gt in Hd'.
    destruct m as [|m]; [lia|]. simpl. rewrite Hval, Hd.
    case_bool_decide; simpl; [done|].
    erewrite try_body_ext; [done| |].
    + intros st' u Hst'. simpl in Hst'. apply IH; rewrite Hst'; lia.
    + intros st' u. apply scrape_page_rec_max_depth.
Qed.

(** [scrape_page] satisfies the equation that the source reads as. *)
Lemma scrape_page_eq st url depth :
  scrape_page st url depth =
  if negb (is_valid_url url)
     || (depth >=? max_depth st)%Z
     || bool_decide (url ∈ visited_urls st)
  then st
  else
    let visit st' next_url := scrape_page st' next_url (depth + 1) in
    match try_body visit (with_visited ({[url]} ∪ visited_urls st) st)
                   url depth with
    | (st', None) => st'
    | (st', Some e) =>
        logger ERROR (lit "Error scraping " ++ url ++ lit ": " ++ e) st'
    end.
Proof.
  unfold scrape_page at 1.
  destruct (Z.to_nat (max_depth st - depth)) as [|k] eqn:Hk; simpl.
  - destruct (negb (is_valid_url url)); [done|].
    destruct (depth >=? max_depth st)%Z eqn:Hd; [done|].
    rewrite Z.geb_leb in Hd. apply Z.leb_gt in Hd. lia.
  - destruct (negb (is_valid_url url)); [done|].
    destruct (depth >=? max_depth st)%Z eqn:Hd; [done|].
    case_bool_decide; simpl; [done|].
    erewrite try_body_ext; [done| |].
    + intros st' u Hst'. simpl in Hst'. unfold scrape_page.
      apply scrape_page_rec_fuel; rewrite Hst'; lia.
    + intros st' u. apply scrape_page_rec_max_depth.
Qed.

Lemma scrape_page_guarded st url depth :
  negb (is_valid_url url)
  || (depth >=? max_depth st)%Z
  || bool_decide (url ∈ visited_urls st) = true →
  scrape_page st url depth = st.
Proof. intros H. by rewrite scrape_page_eq, H. Qed.

Lemma scrape_extends st seed : extends 0 st (scrape st seed).1.
Proof.
  unfold scrape. simpl.
  eapply extends_trans; [apply extends_logger|apply scrape_page_extends].
Qed.

Lemma crawls_extends seeds : ∀ st, extends 0 st (crawls st seeds).
Proof.
  induction seeds as [|seed seeds IH]; intros st; simpl.
  - apply extends_refl.
  - eapply extends_trans; [apply scrape_extends|apply IH].
Qed.

Lemma fetched_once_extends d st st' :
  fetched_once st → extends d st st' → fetched_once st'.
Proof.
  intros [Hnd Hv] [_ _ _ (issued & Hf & Hnd' & Hv' & Hi) _ _].
  unfold fetched_once. rewrite Hf, fmap_app. split.
  - apply NoDup_app. split_and!; [done| |done].
    intros u Hu1 Hu2. apply list_elem_of_fmap in Hu2 as ([u' d'] & -> & Hin).
    destruct (Hi _ _ Hin) as (Hnv & _). apply Hnv. rewrite Hv.
    by apply elem_of_list_to_set.
  - by rewrite Hv', Hv, list_to_set_app_L.
Qed.

Lemma fetched_once_new md mp t : fetched_once (new md mp t).
Proof. split; [constructor|done]. Qed.

Lemma is_valid_url_false url :
  is_valid_url url = false ↔
  match urlparse url with
  | Returns r =>
      (scheme r ≠ lit "http" ∧ scheme r ≠ lit "https") ∨ netloc r = []
  | Raises _ => True
  end.
Proof.
  unfold is_valid_url. destruct (urlparse url) as [r|msg]; [|done].
  rewrite andb_false_iff, orb_false_iff, negb_false_iff.
  rewrite !bool_decide_eq_false, bool_decide_eq_true. done.
Qed.

Lemma guard_open st url depth :
  is_valid_url url = true → (depth < max_depth st)%Z →
  url ∉ visited_urls st →
  negb (is_valid_url url)
  || (depth >=? max_depth st)%Z
  || bool_decide (url ∈ visited_urls st) = false.
Proof.
  intros -> Hd Hv. rewrite bool_decide_eq_false_2 by done.
  rewrite Z.geb_leb. apply Z.leb_gt in Hd. by rewrite Hd.
Qed.

Lemma extract_urls page (r : Category → list str) v :
  v ∈ extract page r urls ↔ v ∈ r urls.
Proof.
  unfold extract. rewrite remove_duplicates_elem.
  rewrite !extend_elem. clear urlparse urljoin requests_get. naive_solver.
Qed.

(** A loop whose nested calls all return at once issues no request. *)
Lemma follow_links_idle visit url links :
  ∀ st, (∀ st' u, max_depth st' = max_depth st → visit st' u = st') →
    fetched (follow_links visit url st links).1 = fetched st.
Proof.
  induction links as [|href rest IH]; intros st Hvisit; simpl; [done|].
  destruct (urljoin url href) as [next_url|msg]; [|done].
  destruct (is_valid_url next_url); [|by apply IH].
  rewrite Hvisit by done. by rewrite IH.
Qed.

(** Such a loop adds to [urls] the valid links, in the order of the page. *)
Lemma follow_links_idle_urls visit url links nexts :
  Forall2 (fun href next_url => urljoin url href = Returns next_url)
          links nexts →
  ∀ st, (∀ st' u, max_depth st' = max_depth st → visit st' u = st') →
    results (follow_links visit url st links).1 urls
    = results st urls ++ filter (fun u => is_valid_url u = true) nexts.
Proof.
  induction 1 as [|href next_url links nexts Hjoin _ IH]; intros st Hvisit; simpl.
  - by rewrite app_nil_r.
  - rewrite Hjoin. destruct (is_valid_url next_url) eqn:Hval.
    + rewrite Hvisit by done. rewrite IH by done.
      rewrite filter_cons_True by done. simpl. unfold extend at 1.
      rewrite decide_True by done. by rewrite <- app_assoc.
    + rewrite IH by done. rewrite filter_cons_False; [done|]. by rewrite Hval.
Qed.

Lemma list_set_nil : list_set [] = [].
Proof. unfold list_set. simpl. apply elements_empty. Qed.

(** The loop records a valid link once it reaches it. *)
Lemma follow_links_records d visit url before href after next_url :
  (∀ st u, extends d st (visit st u)) →
  (∀ h, h ∈ before → ∃ u, urljoin url h = Returns u) →
  urljoin url href = Returns next_url →
  is_valid_url next_url = true →
  ∀ st, next_url ∈
    results (follow_links visit url st (before ++ href :: after)).1 urls.
Proof.
  intros Hvisit Hbefore Hjoin Hval.
  induction before as [|h before IH]; intros st; simpl.
  - rewrite Hjoin, Hval.
    apply (follow_links_extends d visit url after Hvisit).
    apply (Hvisit _ next_url). simpl. apply extend_elem. right.
    split; [done|]. by apply list_elem_of_singleton.
  - destruct (Hbefore h) as [u ->]; [by left|].
    destruct (is_valid_url u); apply IH; intros h' Hh'; apply Hbefore; by right.
Qed.

(** What a category holds once a page has been merged into it. *)
Lemma extract_elem page (r : Category → list str) k v :
  v ∈ extract page r k ↔
  v ∈ r k
  ∨ (k = emails ∧ v ∈ extract_emails (text page))
  ∨ (k = phone_numbers ∧ v ∈ extract_phone_numbers (text page))
  ∨ (k = social_media ∧ v ∈ extract_social_media (text page) (hrefs page))
  ∨ (k = dates ∧ v ∈ extract_dates (text page))
  ∨ (k = addresses ∧ v ∈ extract_addresses (text page))
  ∨ (k = prices ∧ v ∈ extract_prices (text page)).
Proof.
  unfold extract. rewrite remove_duplicates_elem, !extend_elem.
  clear urlparse urljoin requests_get. naive_solver.
Qed.

Lemma extract_NoDup page (r : Category → list str) k :
  NoDup (extract page r k).
Proof. apply list_set_NoDup. Qed.

(** Merging a page a second time adds no value. *)
Lemma extract_twice page (r : Category → list str) k v :
  v ∈ extract page (extract page r) k ↔ v ∈ extract page r k.
Proof.
  rewrite !extract_elem. clear urlparse urljoin requests_get. naive_solver.
Qed.

(** A property of the object that every statement of [scrape_page] keeps is
    kept by the call. *)
Lemma scrape_page_rec_invariant (P : WebScraper → Prop) :
  (∀ st v, P st → P (with_visited v st)) →
  (∀ st f, P st → P (with_fetched f st)) →
  (∀ st page, P st → P (with_results (extract page (results st)) st)) →
  (∀ st u, P st → P (with_results (extend urls [u] (results st)) st)) →
  (∀ st lv msg, P st → P (logger lv msg st)) →
  ∀ fuel st url depth, P st → P (scrape_page_rec fuel st url depth).
Proof.
  intros Hvisited Hfetched Hextract Hlink Hlog.
  induction fuel as [|fuel IH]; intros st url depth HP; simpl.
  - by destruct (_ || _).
  - destruct (_ || _); [done|]. unfold try_body.
    cbn [fetched timeout with_visited].
    set (st1 := with_fetched _ _).
    assert (P st1) as HP1 by (by apply Hfetched, Hvisited).
    destruct (requests_get _ _ _) as [page|msg]; [|by apply Hlog].
    set (st2 := with_results _ _).
    assert (P st2) as HP2 by (by apply Hextract).
    destruct (_ && _); [|done].
    assert (P (follow_links
                 (fun st' next_url => scrape_page_rec fuel st' next_url (depth + 1))
                 url st2 (hrefs page)).1) as HP3.
    { clear -IH HP2 Hlink. generalize dependent st2.
      induction (hrefs page) as [|href rest IHl]; intros st2 HP2; simpl; [done|].
      destruct (urljoin url href) as [next_url|msg]; [|done].
      destruct (is_valid_url next_url); [|by apply IHl].
      by apply IHl, IH, Hlink. }
    destruct (follow_links _ _ _ _) as [st3 [e|]]; [by apply Hlog|done].
Qed.

Lemma crawls_extracted_once md mp t seeds :
  extracted_once (crawls (new md mp t) seeds).
Proof.
  assert (extracted_once (new md mp t)) as Hnew
    by (intros k _; apply NoDup_nil_2).
  revert Hnew. generalize (new md mp t).
  induction seeds as [|seed seeds IH]; intros st Hst; simpl; [done|].
  apply IH. unfold scrape, scrape_page. simpl.
  apply scrape_page_rec_invariant; try done.
  - intros st' page _ k _. apply extract_NoDup.
  - intros st' u Hst' k Hk. simpl. unfold extend.
    rewrite decide_False by done. by apply Hst'.
Qed.

(** When line 241 or 242 raises, the call marks the URL visited, logs the
    error and returns with the results as they were: the loop of the page
    that linked to it goes on with the links that remain, and a crawl whose
    seed raises returns the dictionary of a new object. *)
Lemma raising_request_adds_nothing st url depth msg :
  is_valid_url url = true → (depth < max_depth st)%Z →
  url ∉ visited_urls st →
  requests_get (length (fetched st)) url (timeout st) = Raises msg →
  let failed :=
    logger ERROR (lit "Error scraping " ++ url ++ lit ": " ++ msg)
      (with_fetched (fetched st ++ [(url, depth)])
         (with_visited ({[url]} ∪ visited_urls st) st)) in
  let visit st' next_url := scrape_page st' next_url depth in
  scrape_page st url depth = failed
  ∧ results failed = results st
  ∧ (∀ parent href rest st0,
       urljoin parent href = Returns url →
       st = with_results (extend urls [url] (results st0)) st0 →
       follow_links visit parent st0 (href :: rest)
       = follow_links visit parent failed rest)
  ∧ ∀ md mp t,
      st = logger INFO (lit "Starting scrape from: " ++ url) (new md mp t) →
      depth = 0%Z →
      ∀ k, (scrape (new md mp t) url).2 k = [].
Proof.
  intros Hval Hd Hv Hget failed visit.
  assert (scrape_page st url depth = failed) as Heq.
  { rewrite scrape_page_eq, guard_open by done. cbn zeta.
    unfold try_body. cbn [fetched timeout with_visited]. by rewrite Hget. }
  split_and!; [done|done| |].
  - intros parent href rest st0 Hjoin Hst. simpl.
    rewrite Hjoin, Hval. unfold visit at 2. by rewrite <- Hst, Heq.
  - intros md mp t Hst -> k. unfold scrape. cbn zeta. cbn [snd].
    rewrite <- Hst, Heq. unfold failed. cbn [results logger with_log with_fetched with_visited].
    by rewrite Hst.
Qed.

(** When lines 241 to 244 give a page, what the extractors find on it is in
    the results the call leaves, whatever the links of the page do. *)
Lemma returned_page_is_extracted st url depth page :
  is_valid_url url = true → (depth < max_depth st)%Z →
  url ∉ visited_urls st →
  requests_get (length (fetched st)) url (timeout st) = Returns page →
  ∀ k v, v ∈ extract page (results st) k →
         v ∈ results (scrape_page st url depth) k.
Proof.
  intros Hval Hd Hv Hget k v Hin.
  rewrite scrape_page_eq, guard_open by done. cbn zeta.
  unfold try_body. cbn [fetched timeout with_visited]. rewrite Hget.
  set (merged := with_results _ _).
  assert (v ∈ results merged k) as Hmerged by done.
  destruct (_ && _); [|done].
  pose proof (follow_links_extends (depth + 1)
                (fun st' next_url => scrape_page st' next_url (depth + 1))
                url (hrefs page)
                (fun st' u => scrape_page_extends st' u (depth + 1)%Z)
                merged) as [_ _ _ _ Hr _].
  destruct (follow_links _ _ _ _) as [st' [e|]]; simpl in Hr; by apply Hr.
Qed.

(** ** The claims about the crawl *)

(** C8. A call [scrape_page(url, depth)] with [depth >= max_depth] returns
    at once: it issues no request and leaves the object as it was. During
    any call, every request that is issued comes from a call whose depth is
    below [max_depth]. *)
Theorem no_fetch_at_max_depth st url depth :
  ((depth >= max_depth st)%Z → scrape_page st url depth = st)
  ∧ ∀ u d, (u, d) ∈ fetched (scrape_page st url depth) →
      (u, d) ∈ fetched st ∨ (d < max_depth st)%Z.
Proof.
  split.
  - intros Hd. apply scrape_page_guarded.
    apply Z.geb_ge in Hd. rewrite Hd. by rewrite orb_true_r.
  - intros u d Hin.
    destruct (scrape_page_extends st url depth)
      as [_ _ _ (issued & Hf & _ & _ & Hi) _ _].
    rewrite Hf in Hin. apply elem_of_app in Hin as [Hin|Hin]; [by left|right].
    destruct (Hi _ _ Hin) as (_ & _ & Hd). lia.
Qed.

(** C4. On an object that served any number of crawls since it was created,
    no URL has been requested twice, and the visited set has as many
    elements as requests were issued. *)
Theorem no_url_fetched_twice md mp t (seeds : list str) :
  let st := crawls (new md mp t) seeds in
  NoDup ((fetched st).*1)
  ∧ size (visited_urls st) = length (fetched st).
Proof.
  intros st.
  destruct (fetched_once_extends 0 (new md mp t) st) as [Hnd Hv].
  - apply fetched_once_new.
  - apply crawls_extends.
  - split; [done|].
    rewrite Hv, size_list_to_set by done. by rewrite length_fmap.
Qed.


(** C6. A seed for which [urlparse] gives a scheme other than [http] and
    [https], or an empty host, or raises, ends the crawl at once: no request
    is issued, nothing is visited, the seven categories of the dictionary
    returned by a new object are empty, and nothing but the start of the
    crawl is logged. *)
Theorem invalid_seed_gives_empty_results md mp t seed :
  match urlparse seed with
  | Returns r =>
      (scheme r ≠ lit "http" ∧ scheme r ≠ lit "https") ∨ netloc r = []
  | Raises _ => True
  end →
  let st := (scrape (new md mp t) seed).1 in
  is_valid_url seed = false
  ∧ fetched st = []
  ∧ visited_urls st = ∅
  ∧ (∀ k, (scrape (new md mp t) seed).2 k = [])
  ∧ log st = [(INFO, lit "Starting scrape from: " ++ seed)].
Proof.
  intros Hval%is_valid_url_false. unfold scrape. cbn zeta. cbn [fst snd].
  rewrite scrape_page_guarded; [done|]. by rewrite Hval.
Qed.

(** C3, as the code has it. With [max_depth = 0] the guard of [scrape_page]
    already rejects the seed: the crawl issues no request and returns the
    empty dictionary of a new object. It is with [max_depth = 1] that the
    seed page, when valid, is requested and nothing else is; if it answers,
    more than one page is allowed and [urljoin] resolves every link, [urls]
    then holds the valid links of the seed page and nothing else. *)
Theorem seed_fetched_only_from_depth_one mp t seed :
  (let st := (scrape (new 0 mp t) seed).1 in
   fetched st = [] ∧ ∀ k, results st k = [])
  ∧ (is_valid_url seed = true →
     fetched (scrape (new 1 mp t) seed).1 = [(seed, 0%Z)])
  ∧ (is_valid_url seed = true → (1 < mp)%Z →
     ∀ page nexts,
       requests_get 0 seed t = Returns page →
       Forall2 (fun href next_url => urljoin seed href = Returns next_url)
               (hrefs page) nexts →
       (scrape (new 1 mp t) seed).2 urls
       = filter (fun u => is_valid_url u = true) nexts).
Proof.
  assert (∀ st' (u : str), max_depth st' = 1%Z →
            scrape_page st' u (0 + 1) = st') as Hidle.
  { intros st' u Hmd. apply scrape_page_guarded.
    replace (0 + 1 >=? max_depth st')%Z with true; [by rewrite orb_true_r|].
    by rewrite Hmd. }
  split_and!.
  - unfold scrape. cbn zeta. cbn [fst].
    rewrite scrape_page_guarded; [done|]. by rewrite orb_true_r.
  - intros Hval. unfold scrape. cbn zeta. cbn [fst].
    rewrite scrape_page_eq, guard_open;
      [|done|simpl; lia|apply not_elem_of_empty].
    cbn zeta. unfold try_body. cbn [fetched timeout with_visited logger with_log new].
    destruct (requests_get _ _ _) as [page|msg]; [|done].
    destruct (_ && _); [|done].
    set (st1 := with_results _ _).
    assert (fetched (follow_links
                       (fun st' next_url => scrape_page st' next_url (0 + 1))
                       seed st1 (hrefs page)).1 = [(seed, 0%Z)]) as H
      by (rewrite follow_links_idle; [done|apply Hidle]).
    by destruct (follow_links _ _ _ _) as [st' [e|]].
  - intros Hval Hmp page nexts Hget Hjoin. unfold scrape. cbn zeta. cbn [snd].
    rewrite scrape_page_eq, guard_open;
      [|done|simpl; lia|apply not_elem_of_empty].
    cbn zeta. unfold try_body.
    cbn [fetched timeout with_visited logger with_log new length].
    rewrite Hget.
    cbn [max_depth max_pages visited_urls results fetched timeout with_visited
         with_results with_fetched with_log logger new].
    rewrite union_empty_r_L, size_singleton.
    replace (Z.of_nat 1 <? mp)%Z with true by (symmetry; apply Z.ltb_lt; lia).
    cbn [andb Z.ltb Z.compare].
    set (st1 := with_results _ _).
    pose proof (follow_links_idle_urls
                  (fun st' next_url => scrape_page st' next_url (0 + 1))
                  seed (hrefs page) nexts Hjoin st1 Hidle) as H.
    assert (results st1 urls = []) as Hurls.
    { subst st1. cbn [results with_results with_fetched].
      unfold extract, remove_duplicates, extend. simpl. apply list_set_nil. }
    rewrite Hurls in H. simpl in H.
    by destruct (follow_links _ _ _ _) as [st' [e|]].
Qed.

(** C2, as the code has it. The links of a page are recorded under the same
    test as they are followed. When the visited set, the page included, is
    still smaller than [max_pages], every link that resolves to a valid URL
    is added to [urls] (provided [urljoin] raised on no earlier link of the
    page), whether it is requested later or not. When the visited set has
    reached [max_pages], the page is requested and its links are neither
    followed nor recorded: [urls] holds what it held before. *)
Theorem links_recorded_while_pages_remain st url depth page :
  is_valid_url url = true → (depth < max_depth st)%Z →
  url ∉ visited_urls st →
  requests_get (length (fetched st)) url (timeout st) = Returns page →
  let st' := scrape_page st url depth in
  let count := Z.of_nat (size ({[url]} ∪ visited_urls st)) in
  ((count < max_pages st)%Z →
   ∀ before href after next_url,
     hrefs page = before ++ href :: after →
     (∀ h, h ∈ before → ∃ u, urljoin url h = Returns u) →
     urljoin url href = Returns next_url →
     is_valid_url next_url = true →
     next_url ∈ results st' urls)
  ∧ ((count >= max_pages st)%Z →
     fetched st' = fetched st ++ [(url, depth)]
     ∧ ∀ v, v ∈ results st' urls ↔ v ∈ results st urls).
Proof.
  intros Hval Hd Hv Hget st' count. subst st'.
  rewrite scrape_page_eq, guard_open by done. cbn zeta.
  unfold try_body. cbn [fetched timeout with_visited]. rewrite Hget.
  cbn [max_depth max_pages visited_urls with_results with_fetched with_visited].
  fold count. split.
  - intros Hcount before href after next_url Hpage Hbefore Hjoin Hnext.
    replace (depth <? max_depth st)%Z with true by (symmetry; by apply Z.ltb_lt).
    replace (count <? max_pages st)%Z with true by (symmetry; by apply Z.ltb_lt).
    cbn [andb]. rewrite Hpage.
    set (visit := fun st' next => scrape_page st' next (depth + 1)).
    set (st1 := with_results _ _).
    pose proof (follow_links_records (depth + 1) visit url before href after
                  next_url (fun s u => scrape_page_extends s u (depth + 1)%Z)
                  Hbefore Hjoin Hnext st1) as H.
    by destruct (follow_links _ _ _ _) as [st2 [e|]].
  - intros Hcount.
    replace (count <? max_pages st)%Z with false by (symmetry; apply Z.ltb_ge; lia).
    rewrite andb_false_r. cbn [fetched results with_results with_fetched].
    split; [done|]. intros v. apply extract_urls.
Qed.

(** ** The claim about the extractors *)

Lemma head_of {A} (l : list A) (x : A) :
  hd_error l = Some x → ∃ others, l = x :: others.
Proof. destruct l as [|y l]; [done|]. intros [= ->]. by exists l. Qed.

(** The e-mail pattern cannot start at the space after the colon, and at the
    [a] that follows its first success is [a@b.com], whatever comes after
    the sentence. *)
Lemma email_not_at_space tail :
  matches false (Some (ch ":")) email_pattern
    ([], lit " a@b.com or call (555) 123-4567" ++ tail) = [].
Proof. vm_compute. reflexivity. Qed.

Lemma email_at_a tail :
  hd_error (matches false (Some (ch " ")) email_pattern
              ([], lit "a@b.com or call (555) 123-4567" ++ tail))
  = Some (rev (lit "a@b.com"), lit " or call (555) 123-4567" ++ tail).
Proof. vm_compute. reflexivity. Qed.

(** The same for the second phone pattern, between the [l] of [call] and
    the opening parenthesis. *)
Lemma phone_not_at_space tail :
  matches false (Some (ch "l")) phone_us
    ([], lit " (555) 123-4567" ++ tail) = [].
Proof. vm_compute. reflexivity. Qed.

Lemma phone_at_parenthesis tail :
  hd_error (matches false (Some (ch " ")) phone_us
              ([], lit "(555) 123-4567" ++ tail))
  = Some (rev (lit "(555) 123-4567"), tail).
Proof. vm_compute. reflexivity. Qed.

Lemma email_found (before after : str) :
  lit "a@b.com" ∈
    findall false email_pattern
      (before ++ lit "Contact: a@b.com or call (555) 123-4567" ++ after).
Proof.
  unfold findall.
  replace (before ++ lit "Contact: a@b.com or call (555) 123-4567" ++ after)
    with ((before ++ lit "Contact")
          ++ ch ":" :: (lit " a@b.com or call (555) 123-4567" ++ after))
    by (by rewrite <- app_assoc).
  destruct (scan_to_barrier false email_pattern (ch ":")
              (lit " a@b.com or call (555) 123-4567" ++ after)
              eq_refl (before ++ lit "Contact") None 0%nat) as [out ->]; [lia|].
  apply elem_of_app. right.
  change (lit " a@b.com or call (555) 123-4567" ++ after)
    with (ch " " :: (lit "a@b.com or call (555) 123-4567" ++ after)).
  rewrite scan_miss by apply email_not_at_space.
  destruct (head_of _ _ (email_at_a after)) as [others H].
  exact (scan_hit false email_pattern _ _ (ch "m") (rev (lit "a@b.co")) _
           others H).
Qed.

Lemma phone_found (before after : str) :
  lit "(555) 123-4567" ∈
    findall false phone_us
      (before ++ lit "Contact: a@b.com or call (555) 123-4567" ++ after).
Proof.
  unfold findall.
  replace (before ++ lit "Contact: a@b.com or call (555) 123-4567" ++ after)
    with ((before ++ lit "Contact: a@b.com or cal")
          ++ ch "l" :: (lit " (555) 123-4567" ++ after))
    by (by rewrite <- app_assoc).
  destruct (scan_to_barrier false phone_us (ch "l")
              (lit " (555) 123-4567" ++ after)
              eq_refl (before ++ lit "Contact: a@b.com or cal") None 0%nat)
    as [out ->]; [lia|].
  apply elem_of_app. right.
  change (lit " (555) 123-4567" ++ after)
    with (ch " " :: (lit "(555) 123-4567" ++ after)).
  rewrite scan_miss by apply phone_not_at_space.
  destruct (head_of _ _ (phone_at_parenthesis after)) as [others H].
  exact (scan_hit false phone_us _ _ (ch "7") (rev (lit "(555) 123-456")) _
           others H).
Qed.

(** C9. Whatever surrounds the sentence
    [Contact: a@b.com or call (555) 123-4567] in the text of a page,
    [extract_emails] returns [a@b.com] and [extract_phone_numbers] returns
    [(555) 123-4567], and so do the [emails] and [phone_numbers] categories
    once the page has been merged into the results. *)
Theorem contact_sentence_is_extracted (before after : str) :
  let text := before ++ lit "Contact: a@b.com or call (555) 123-4567" ++ after in
  lit "a@b.com" ∈ extract_emails text
  ∧ lit "(555) 123-4567" ∈ extract_phone_numbers text
  ∧ ∀ links r,
      let page := {| text := text; hrefs := links |} in
      lit "a@b.com" ∈ extract page r emails
      ∧ lit "(555) 123-4567" ∈ extract page r phone_numbers.
Proof.
  intros text.
  assert (lit "a@b.com" ∈ extract_emails text) as He.
  { apply list_set_elem, email_found. }
  assert (lit "(555) 123-4567" ∈ extract_phone_numbers text) as Hp.
  { apply list_set_elem, list_elem_of_bind. exists phone_us.
    split; [apply phone_found|]. right. by left. }
  split_and!; [done..|].
  intros links r page. unfold extract. rewrite !remove_duplicates_elem.
  rewrite !extend_elem. split.
  - do 5 left. by right.
  - do 4 left. by right.
Qed.

(** ** Further properties of the crawl *)

Lemma follow_links_accounted seeds visit url depth links :
  (∀ st u, accounted seeds st → called_on seeds st u depth →
           accounted seeds (visit st u)) →
  ∀ st, accounted seeds st →
    accounted seeds (follow_links visit url st links).1.
Proof.
  intros Hvisit. induction links as [|href rest IH]; intros st Hst; simpl;
    [done|].
  destruct (urljoin url href) as [next_url|msg]; [|done].
  destruct (is_valid_url next_url) eqn:Hval; [|by apply IH].
  apply IH, Hvisit.
  - destruct Hst as (Ha & Hb & Hc). split_and!.
    + intros u d Hin. destruct (Ha u d Hin) as [?|Hu]; [by left|right].
      simpl. apply extend_elem. by left.
    + intros v. simpl. rewrite extend_elem.
      intros [Hv|[_ ->%list_elem_of_singleton]]; [by apply Hb|done].
    + exact Hc.
  - right. simpl. apply extend_elem. right. split; [done|].
    by apply list_elem_of_singleton.
Qed.

Lemma logger_accounted seeds st url e :
  url ∈ (fetched st).*1 → accounted seeds st →
  accounted seeds
    (logger ERROR (lit "Error scraping " ++ url ++ lit ": " ++ e) st).
Proof.
  intros Hurl (Ha & Hb & Hc). split_and!; [done..|].
  intros msg. simpl. rewrite elem_of_app.
  intros [Hin|Hin%list_elem_of_singleton]; [by apply Hc|].
  injection Hin as ->. by exists url, e.
Qed.

Lemma scrape_page_rec_accounted seeds fuel :
  ∀ st url depth, accounted seeds st → called_on seeds st url depth →
    accounted seeds (scrape_page_rec fuel st url depth).
Proof.
  induction fuel as [|fuel IH]; intros st url depth Hst Hcall; simpl.
  - by destruct (_ || _).
  - destruct (_ || _); [done|]. unfold try_body.
    cbn [fetched timeout with_visited].
    set (st1 := with_fetched _ _).
    assert (accounted seeds st1) as Hst1.
    { destruct Hst as (Ha & Hb & Hc). split_and!.
      - intros u d. simpl. rewrite elem_of_app.
        intros [Hin|Hin%list_elem_of_singleton]; [by apply Ha|].
        by injection Hin as -> ->.
      - exact Hb.
      - intros msg Hin. destruct (Hc msg Hin) as (u & e & Hu & ->).
        exists u, e. split; [|done]. simpl. rewrite fmap_app.
        apply elem_of_app. by left. }
    assert (url ∈ (fetched st1).*1) as Hurl.
    { simpl. rewrite fmap_app. apply elem_of_app. right. by left. }
    destruct (requests_get _ _ _) as [page|msg];
      [|by apply logger_accounted].
    set (st2 := with_results _ _).
    assert (accounted seeds st2) as Hst2.
    { destruct Hst1 as (Ha & Hb & Hc). split_and!.
      - intros u d Hin. destruct (Ha u d Hin) as [?|Hu]; [by left|right].
        simpl. by apply extract_urls.
      - intros v Hv. simpl in Hv. apply extract_urls in Hv. by apply Hb.
      - exact Hc. }
    destruct (_ && _); [|done].
    set (visit := fun st' next_url =>
                    scrape_page_rec fuel st' next_url (depth + 1)).
    pose proof (follow_links_accounted seeds visit url (depth + 1)
                  (hrefs page) (fun s u => IH s u (depth + 1)%Z) st2 Hst2)
      as Hloop.
    pose proof (follow_links_extends (depth + 1) visit url (hrefs page)
                  (fun s u => scrape_page_rec_extends fuel s u (depth + 1)%Z)
                  st2) as [_ _ _ (issued & Hf & _) _ _].
    destruct (follow_links _ _ _ _) as [st3 [e|]]; [|done].
    apply logger_accounted; [|done]. simpl in Hf. rewrite Hf, fmap_app.
    apply elem_of_app. by left.
Qed.

Lemma accounted_more_seeds seeds seeds' st :
  (∀ u, u ∈ seeds → u ∈ seeds') → accounted seeds st → accounted seeds' st.
Proof.
  intros Hsub (Ha & Hb & Hc). split_and!; [|done..].
  intros u d Hin. destruct (Ha u d Hin) as [[-> Hu]|Hu]; [left|by right].
  split; [done|by apply Hsub].
Qed.

Lemma crawls_accounted seeds :
  ∀ earlier st, accounted earlier st →
    accounted (earlier ++ seeds) (crawls st seeds).
Proof.
  induction seeds as [|seed seeds IH]; intros earlier st Hst; simpl.
  - by rewrite app_nil_r.
  - replace (earlier ++ seed :: seeds) with ((earlier ++ [seed]) ++ seeds)
      by (by rewrite <- app_assoc).
    apply IH. unfold scrape, scrape_page. cbn zeta. cbn [fst].
    apply scrape_page_rec_accounted.
    + apply (accounted_more_seeds earlier); [intros u Hu; apply elem_of_app; by left|].
      destruct Hst as (Ha & Hb & Hc). split_and!; [done..|].
      intros msg. simpl. rewrite elem_of_app.
      intros [Hin|Hin%list_elem_of_singleton]; [by apply Hc|done].
    + left. split; [done|]. apply elem_of_app. right. by left.
Qed.

Lemma accounted_new md mp t : accounted [] (new md mp t).
Proof.
  split_and!.
  - intros u d Hin. by apply elem_of_nil in Hin.
  - intros v Hin. by apply elem_of_nil in Hin.
  - intros msg Hin. by apply elem_of_nil in Hin.
Qed.

(** A call that passes the guard leaves its URL in the visited set. *)
Lemma scrape_page_marks st url depth :
  negb (is_valid_url url)
  || (depth >=? max_depth st)%Z
  || bool_decide (url ∈ visited_urls st) = false →
  url ∈ visited_urls (scrape_page st url depth).
Proof.
  intros Hguard. rewrite scrape_page_eq, Hguard. cbn zeta.
  unfold try_body. cbn [fetched timeout with_visited].
  set (st1 := with_fetched _ _).
  assert (url ∈ visited_urls st1) as H1 by (simpl; by apply elem_of_union_l, elem_of_singleton).
  destruct (requests_get _ _ _) as [page|msg]; [|done].
  set (st2 := with_results _ _).
  destruct (_ && _); [|done].
  set (visit := fun st' next_url => scrape_page st' next_url (depth + 1)).
  pose proof (follow_links_extends (depth + 1) visit url (hrefs page)
                (fun s u => scrape_page_extends s u (depth + 1)%Z) st2)
    as [_ _ _ (issued & _ & _ & Hv & _) _ _].
  destruct (follow_links _ _ _ _) as [st3 [e|]]; simpl in Hv |- *;
    rewrite Hv; by apply elem_of_union_l.
Qed.

(** The loop stops at the first link on which [urljoin] raises. *)
Lemma follow_links_raise visit url before href after msg :
  (∀ h, h ∈ before → ∃ u, urljoin url h = Returns u) →
  urljoin url href = Raises msg →
  ∀ st, follow_links visit url st (before ++ href :: after)
        = ((follow_links visit url st before).1, Some msg).
Proof.
  intros Hbefore Hjoin. induction before as [|h before IH]; intros st; simpl.
  - by rewrite Hjoin.
  - destruct (Hbefore h) as [u ->]; [by left|].
    destruct (is_valid_url u); apply IH; intros h' Hh'; apply Hbefore; by right.
Qed.

(** X1. Scraping the same seed again on the same object does nothing: no
    request is issued, the dictionary returned is the one of the first call,
    and the object only has one more INFO record. This holds whether the
    first call fetched the seed or not, and whatever the network would
    answer the second time. *)
Theorem scraping_again_changes_nothing st seed :
  let st1 := (scrape st seed).1 in
  scrape st1 seed
  = (logger INFO (lit "Starting scrape from: " ++ seed) st1, results st1).
Proof.
  intros st1. unfold scrape at 1. cbn zeta.
  set (st2 := logger INFO _ st1).
  assert (scrape_page st2 seed 0 = st2) as ->; [|done].
  apply scrape_page_guarded.
  set (st0 := logger INFO (lit "Starting scrape from: " ++ seed) st).
  assert (st1 = scrape_page st0 seed 0) as Hst1 by done.
  assert (max_depth st2 = max_depth st0) as Hmd.
  { subst st2. simpl. rewrite Hst1. apply (scrape_page_extends st0 seed 0). }
  destruct (negb (is_valid_url seed)) eqn:Hval; [done|].
  rewrite Hmd.
  destruct (0 >=? max_depth st0)%Z eqn:Hd; [done|].
  destruct (bool_decide (seed ∈ visited_urls st0)) eqn:Hv.
  - assert (st1 = st0) as Heq.
    { rewrite Hst1. apply scrape_page_guarded. by rewrite Hval, Hd, Hv. }
    subst st2. simpl. by rewrite Heq.
  - assert (seed ∈ visited_urls st1) as Hin.
    { rewrite Hst1. apply scrape_page_marks. by rewrite Hval, Hd, Hv. }
    subst st2. simpl. by rewrite bool_decide_eq_true_2.
Qed.

(** X2. Whatever the pages contain, an object only requests URLs that
    [is_valid_url] accepts, at depths from 0 up to [max_depth] excluded. *)
Theorem only_valid_urls_requested md mp t (seeds : list str) :
  Forall (fun request =>
            is_valid_url request.1 = true ∧ (0 ≤ request.2 < md)%Z)
         (fetched (crawls (new md mp t) seeds)).
Proof.
  destruct (crawls_extends seeds (new md mp t))
    as [_ _ _ (issued & Hf & _ & _ & Hi) _ _].
  simpl in Hf. rewrite Hf. apply Forall_forall. intros [u d] Hin.
  destruct (Hi u d Hin) as (_ & Hval & Hd). simpl in Hd. done.
Qed.

(** X3. Every URL an object has visited is one of the seeds it was given or
    is listed in [urls]: a page is never requested without its link having
    been recorded first. *)
Theorem visited_are_seeds_or_recorded md mp t (seeds : list str) :
  let st := crawls (new md mp t) seeds in
  set_Forall (fun u => u ∈ seeds ∨ u ∈ results st urls) (visited_urls st)
  ∧ Forall (fun request => request.2 = 0%Z ∨ request.1 ∈ results st urls)
           (fetched st).
Proof.
  intros st.
  destruct (crawls_accounted seeds [] (new md mp t) (accounted_new md mp t))
    as (Ha & _ & _).
  fold st in Ha. simpl in Ha.
  destruct (fetched_once_extends 0 (new md mp t) st (fetched_once_new md mp t)
              (crawls_extends seeds (new md mp t))) as [_ Hv].
  split.
  - intros u Hu. rewrite Hv in Hu. apply elem_of_list_to_set in Hu.
    apply list_elem_of_fmap in Hu as ([u' d] & -> & Hin).
    destruct (Ha u' d Hin) as [[_ ?]|?]; [by left|by right].
  - apply Forall_forall. intros [u d] Hin.
    destruct (Ha u d Hin) as [[? _]|?]; [by left|by right].
Qed.

(** X4. The [urls] category only ever holds URLs that [is_valid_url]
    accepts: links with another scheme or without a host are not recorded. *)
Theorem urls_are_valid md mp t (seeds : list str) :
  Forall (fun v => is_valid_url v = true)
         (results (crawls (new md mp t) seeds) urls).
Proof.
  destruct (crawls_accounted seeds [] (new md mp t) (accounted_new md mp t))
    as (_ & Hb & _).
  apply Forall_forall. exact Hb.
Qed.

(** X5. Every ERROR record of an object is the message
    [Error scraping <url>: <exception>] for a URL that the object
    requested. *)
Theorem errors_name_requested_urls md mp t (seeds : list str) :
  let st := crawls (new md mp t) seeds in
  Forall (fun record =>
            record.1 = ERROR →
            ∃ u e, u ∈ visited_urls st
                   ∧ record.2 = lit "Error scraping " ++ u ++ lit ": " ++ e)
         (log st).
Proof.
  intros st.
  destruct (crawls_accounted seeds [] (new md mp t) (accounted_new md mp t))
    as (_ & _ & Hc).
  destruct (fetched_once_extends 0 (new md mp t) st (fetched_once_new md mp t)
              (crawls_extends seeds (new md mp t))) as [_ Hv].
  apply Forall_forall. intros [lv msg] Hin. simpl. intros ->.
  destruct (Hc msg Hin) as (u & e & Hu & ->). exists u, e.
  split; [|done]. rewrite Hv. by apply elem_of_list_to_set.
Qed.

(** X6. When [urljoin] raises on a link of a fetched page, the loop over the
    links of that page ends there: the links before it are recorded and
    followed, the links after it are neither, and the exception is logged
    for the page. *)
Theorem bad_link_ends_the_page st url depth page before href after msg :
  is_valid_url url = true → (depth < max_depth st)%Z →
  url ∉ visited_urls st →
  requests_get (length (fetched st)) url (timeout st) = Returns page →
  (Z.of_nat (size ({[url]} ∪ visited_urls st)) < max_pages st)%Z →
  hrefs page = before ++ href :: after →
  (∀ h, h ∈ before → ∃ u, urljoin url h = Returns u) →
  urljoin url href = Raises msg →
  let merged :=
    with_results (extract page (results st))
      (with_fetched (fetched st ++ [(url, depth)])
         (with_visited ({[url]} ∪ visited_urls st) st)) in
  let visit st' next_url := scrape_page st' next_url (depth + 1) in
  scrape_page st url depth
  = logger ERROR (lit "Error scraping " ++ url ++ lit ": " ++ msg)
      (follow_links visit url merged before).1.
Proof.
  intros Hval Hd Hv Hget Hcount Hpage Hbefore Hjoin merged visit.
  rewrite scrape_page_eq, guard_open by done. cbn zeta.
  unfold try_body. cbn [fetched timeout with_visited]. rewrite Hget.
  cbn [max_depth max_pages visited_urls with_results with_fetched with_visited].
  replace (depth <? max_depth st)%Z with true by (symmetry; by apply Z.ltb_lt).
  replace (_ <? max_pages st)%Z with true by (symmetry; by apply Z.ltb_lt).
  cbn [andb]. rewrite Hpage.
  by rewrite (follow_links_raise _ url before href after msg Hbefore Hjoin).
Qed.

(** X7. What the test on [max_pages] does guarantee: a call made when the
    visited set is at most one short of [max_pages] requests at most its own
    page, follows no link and records none. *)
Theorem page_budget_spent st url depth :
  (max_pages st ≤ Z.of_nat (size (visited_urls st)) + 1)%Z →
  let st' := scrape_page st url depth in
  (fetched st' = fetched st ∨ fetched st' = fetched st ++ [(url, depth)])
  ∧ ∀ v, v ∈ results st' urls ↔ v ∈ results st urls.
Proof.
  intros Hmp st'. subst st'. rewrite scrape_page_eq.
  destruct (negb (is_valid_url url)) eqn:Hval; [by split; [left|]|].
  destruct (depth >=? max_depth st)%Z eqn:Hd; [by split; [left|]|].
  case_bool_decide as Hv; [by split; [left|]|]. cbn [orb]. cbn zeta.
  unfold try_body. cbn [fetched timeout with_visited].
  destruct (requests_get _ _ _) as [page|msg]; [|by split; [right|]].
  cbn [max_depth max_pages visited_urls with_results with_fetched with_visited].
  replace (_ <? max_pages st)%Z with false.
  - rewrite andb_false_r. cbn [fetched results with_results with_fetched].
    split; [by right|]. intros v. apply extract_urls.
  - symmetry. apply Z.ltb_ge.
    rewrite size_union, size_singleton by (by apply disjoint_singleton_l).
    lia.
Qed.

(** ** Further properties of the matcher *)

Lemma count_app p w1 w2 : count p (w1 ++ w2) = (count p w1 + count p w2)%nat.
Proof. induction w1 as [|c w1 IH]; simpl; [done|]. rewrite IH. lia. Qed.

Lemma count_any w : count (fun _ => true) w = length w.
Proof. induction w as [|c w IH]; simpl; [done|]. by rewrite IH. Qed.

Lemma count_le_length p w : (count p w ≤ length w)%nat.
Proof. induction w as [|c w IH]; simpl; [done|]. destruct (p c); lia. Qed.

Lemma consumes_refl st : consumes st st [].
Proof. by split. Qed.

Lemma consumes_trans st1 st2 st3 w1 w2 :
  consumes st1 st2 w1 → consumes st2 st3 w2 → consumes st1 st3 (w1 ++ w2).
Proof.
  intros [H1 H1'] [H2 H2']. split.
  - by rewrite H1, H2, <- app_assoc.
  - by rewrite H2', H1', rev_app_distr, <- app_assoc.
Qed.

Lemma rep_least p (step : cursor → list cursor) n :
  (∀ st st', st' ∈ step st → ∃ w, consumes st st' w ∧ (n ≤ count p w)%nat) →
  ∀ fuel lo hi st st', st' ∈ rep step fuel lo hi st →
    ∃ w, consumes st st' w ∧ (lo * n ≤ count p w)%nat.
Proof.
  intros Hstep. induction fuel as [|fuel IH]; intros lo hi st st'; simpl.
  - by intros ?%elem_of_nil.
  - intros [Hin|Hin]%elem_of_app.
    + destruct (may_repeat hi); [|by apply elem_of_nil in Hin].
      apply list_elem_of_bind in Hin as (mid & Hin & Hmid).
      destruct (Hstep _ _ Hmid) as (w1 & Hc1 & Hn1).
      destruct (IH _ _ _ _ Hin) as (w2 & Hc2 & Hn2).
      exists (w1 ++ w2). split; [by eapply consumes_trans|].
      rewrite count_app. destruct lo; simpl in *; lia.
    + destruct lo; [|by apply elem_of_nil in Hin].
      apply list_elem_of_singleton in Hin as ->. exists [].
      split; [apply consumes_refl|simpl; lia].
Qed.

(** Every match takes at least [least must r] characters that satisfy [p],
    when the classes that satisfy [must] accept only such characters. *)
Lemma matches_least ic prev p must r :
  (∀ items c, must items = true → cls_ok ic items c = true → p c = true) →
  ∀ st st', st' ∈ matches ic prev r st →
    ∃ w, consumes st st' w ∧ (least must r ≤ count p w)%nat.
Proof.
  intros Hmust.
  induction r as [|items| |r1 IH1 r2 IH2|r1 IH1 r2 IH2|r IH lo hi];
    intros st st'; simpl.
  - intros ->%list_elem_of_singleton. exists []. by split; [apply consumes_refl|].
  - destruct st as [acc [|c rest]]; simpl; [by intros ?%elem_of_nil|].
    destruct (cls_ok ic items c) eqn:Hc; [|by intros ?%elem_of_nil].
    intros ->%list_elem_of_singleton. exists [c]. split; [done|]. simpl.
    destruct (must items) eqn:Hm; [|lia]. rewrite (Hmust items c Hm Hc). lia.
  - destruct (xorb _ _); [|by intros ?%elem_of_nil].
    intros ->%list_elem_of_singleton. exists []. by split; [apply consumes_refl|].
  - intros (mid & Hin & Hmid)%list_elem_of_bind.
    destruct (IH1 _ _ Hmid) as (w1 & Hc1 & Hn1).
    destruct (IH2 _ _ Hin) as (w2 & Hc2 & Hn2).
    exists (w1 ++ w2). split; [by eapply consumes_trans|].
    rewrite count_app. lia.
  - intros [Hin|Hin]%elem_of_app.
    + destruct (IH1 _ _ Hin) as (w & Hc & Hn). exists w. split; [done|lia].
    + destruct (IH2 _ _ Hin) as (w & Hc & Hn). exists w. split; [done|lia].
  - intros Hin.
    apply (rep_least p _ (least must r) IH (S (length st.2)) lo hi). exact Hin.
Qed.

Lemma rep_most_zero p (step : cursor → list cursor) :
  (∀ st st', st' ∈ step st → ∃ w, consumes st st' w ∧ count p w = 0%nat) →
  ∀ fuel lo hi st st', st' ∈ rep step fuel lo hi st →
    ∃ w, consumes st st' w ∧ count p w = 0%nat.
Proof.
  intros Hstep. induction fuel as [|fuel IH]; intros lo hi st st'; simpl.
  - by intros ?%elem_of_nil.
  - intros [Hin|Hin]%elem_of_app.
    + destruct (may_repeat hi); [|by apply elem_of_nil in Hin].
      apply list_elem_of_bind in Hin as (mid & Hin & Hmid).
      destruct (Hstep _ _ Hmid) as (w1 & Hc1 & Hn1).
      destruct (IH _ _ _ _ Hin) as (w2 & Hc2 & Hn2).
      exists (w1 ++ w2). split; [by eapply consumes_trans|].
      rewrite count_app. lia.
    + destruct lo; [|by apply elem_of_nil in Hin].
      apply list_elem_of_singleton in Hin as ->. exists [].
      by split; [apply consumes_refl|].
Qed.

Lemma rep_most p (step : cursor → list cursor) n :
  (∀ st st', st' ∈ step st → ∃ w, consumes st st' w ∧ (count p w ≤ n)%nat) →
  ∀ fuel lo h st st', st' ∈ rep step fuel lo (Some h) st →
    ∃ w, consumes st st' w ∧ (count p w ≤ h * n)%nat.
Proof.
  intros Hstep. induction fuel as [|fuel IH]; intros lo h st st'; simpl.
  - by intros ?%elem_of_nil.
  - intros [Hin|Hin]%elem_of_app.
    + destruct h as [|h]; [by apply elem_of_nil in Hin|].
      apply list_elem_of_bind in Hin as (mid & Hin & Hmid).
      destruct (Hstep _ _ Hmid) as (w1 & Hc1 & Hn1).
      destruct (IH _ _ _ _ Hin) as (w2 & Hc2 & Hn2).
      exists (w1 ++ w2). split; [by eapply consumes_trans|].
      rewrite count_app. simpl. lia.
    + destruct lo; [|by apply elem_of_nil in Hin].
      apply list_elem_of_singleton in Hin as ->. exists [].
      split; [apply consumes_refl|simpl; lia].
Qed.

(** No match takes more than [most may r] characters that satisfy [p], when
    the classes that do not satisfy [may] accept no such character. *)
Lemma matches_most ic prev p may r :
  (∀ items c, may items = false → cls_ok ic items c = true → p c = false) →
  ∀ k st st', most may r = Some k → st' ∈ matches ic prev r st →
    ∃ w, consumes st st' w ∧ (count p w ≤ k)%nat.
Proof.
  intros Hmay.
  induction r as [|items| |r1 IH1 r2 IH2|r1 IH1 r2 IH2|r IH lo hi];
    intros k st st'; simpl.
  - intros [= <-] ->%list_elem_of_singleton. exists [].
    by split; [apply consumes_refl|].
  - intros Hk. destruct st as [acc [|c rest]]; simpl; [by intros ?%elem_of_nil|].
    destruct (cls_ok ic items c) eqn:Hc; [|by intros ?%elem_of_nil].
    intros ->%list_elem_of_singleton. exists [c]. split; [done|]. simpl.
    destruct (may items) eqn:Hm.
    + injection Hk as <-. destruct (p c); lia.
    + injection Hk as <-. rewrite (Hmay items c Hm Hc). lia.
  - intros [= <-]. destruct (xorb _ _); [|by intros ?%elem_of_nil].
    intros ->%list_elem_of_singleton. exists [].
    by split; [apply consumes_refl|].
  - destruct (most may r1) as [a|]; [|done].
    destruct (most may r2) as [b|]; [|done].
    intros [= <-] (mid & Hin & Hmid)%list_elem_of_bind.
    destruct (IH1 _ _ _ eq_refl Hmid) as (w1 & Hc1 & Hn1).
    destruct (IH2 _ _ _ eq_refl Hin) as (w2 & Hc2 & Hn2).
    exists (w1 ++ w2). split; [by eapply consumes_trans|].
    rewrite count_app. lia.
  - destruct (most may r1) as [a|]; [|done].
    destruct (most may r2) as [b|]; [|done].
    intros [= <-] [Hin|Hin]%elem_of_app.
    + destruct (IH1 _ _ _ eq_refl Hin) as (w & Hc & Hn). exists w. split; [done|lia].
    + destruct (IH2 _ _ _ eq_refl Hin) as (w & Hc & Hn). exists w. split; [done|lia].
  - destruct (most may r) as [[|n]|]; [| |done].
    + intros [= <-] Hin.
      destruct (rep_most_zero p (matches ic prev r)) with
        (fuel := S (length st.2)) (lo := lo) (hi := hi) (st := st) (st' := st')
        as (w & Hc & Hn); [|exact Hin|].
      * intros s s' Hs. destruct (IH _ _ _ eq_refl Hs) as (w & Hc & Hn).
        exists w. split; [done|lia].
      * exists w. split; [done|lia].
    + destruct hi as [h|]; [|done]. intros [= <-] Hin.
      apply (rep_most p (matches ic prev r) (S n)) with
        (fuel := S (length st.2)) (lo := lo); [|exact Hin].
      intros s s' Hs. by apply (IH _ _ _ eq_refl Hs).
Qed.

Lemma match_splits ic prev r s m rest :
  (m, rest) ∈ matches ic prev r ([], s) → s = rev m ++ rest.
Proof.
  intros (w & Hs & Hm & _)%matches_advances. simpl in Hs, Hm.
  by rewrite Hm, app_nil_r, rev_involutive.
Qed.

(** Every string that [scan] returns is a success of the pattern at some
    position of the text. *)
Lemma scan_sound ic r :
  ∀ s prev skip x, x ∈ scan ic r prev s skip →
    ∃ pre prev' m rest,
      s = pre ++ rev m ++ rest ∧ x = rev m
      ∧ (m, rest) ∈ matches ic prev' r ([], rev m ++ rest).
Proof.
  assert (∀ s prev m rest, (m, rest) ∈ matches ic prev r ([], s) →
            ∃ pre prev' m' rest',
              s = pre ++ rev m' ++ rest' ∧ rev m = rev m'
              ∧ (m', rest') ∈ matches ic prev' r ([], rev m' ++ rest')) as Hhere.
  { intros s prev m rest Hin. exists [], prev, m, rest.
    pose proof (match_splits _ _ _ _ _ _ Hin) as Hs. by rewrite <- Hs. }
  assert (∀ c s x,
            (∃ pre prev' m rest,
               s = pre ++ rev m ++ rest ∧ x = rev m
               ∧ (m, rest) ∈ matches ic prev' r ([], rev m ++ rest)) →
            ∃ pre prev' m rest,
              c :: s = pre ++ rev m ++ rest ∧ x = rev m
              ∧ (m, rest) ∈ matches ic prev' r ([], rev m ++ rest)) as Hlater.
  { intros c s x (pre & prev' & m & rest & -> & -> & Hin).
    by exists (c :: pre), prev', m, rest. }
  induction s as [|c s IH]; intros prev skip x.
  - destruct skip; [|by intros ?%elem_of_nil]. cbn [scan].
    destruct (matches ic prev r ([], [])) as [|[[|y m] rest] found] eqn:Hfound.
    + by intros ?%elem_of_nil.
    + intros [->|Hx]%elem_of_cons.
      * apply (Hhere [] prev [] rest). rewrite Hfound. by left.
      * destruct (filter _ _) as [|[m' rest'] others] eqn:Hf;
          [by apply elem_of_nil in Hx|].
        apply list_elem_of_singleton in Hx as ->.
        apply first_consumed in Hf as [Hin _].
        apply (Hhere [] prev m' rest'). by rewrite Hfound.
    + intros ->%list_elem_of_singleton.
      apply (Hhere [] prev (y :: m) rest). rewrite Hfound. by left.
  - destruct skip as [|k]; [|by intros Hx; apply Hlater, (IH (Some c) k)].
    cbn [scan].
    destruct (matches ic prev r ([], c :: s)) as [|[[|y m] rest] found]
      eqn:Hfound.
    + intros Hx. by apply Hlater, (IH (Some c) 0%nat).
    + intros [->|Hx]%elem_of_cons.
      * apply (Hhere (c :: s) prev [] rest). rewrite Hfound. by left.
      * destruct (filter _ _) as [|[m' rest'] others] eqn:Hf;
          [by apply Hlater, (IH (Some c) 0%nat)|].
        apply elem_of_cons in Hx as [->|Hx];
          [|by apply Hlater, (IH (Some c) (Nat.pred (length m')))].
        apply first_consumed in Hf as [Hin _].
        apply (Hhere (c :: s) prev m' rest'). by rewrite Hfound.
    + intros [->|Hx]%elem_of_cons;
        [|by apply Hlater, (IH (Some c) (Nat.pred (length (y :: m))))].
      apply (Hhere (c :: s) prev (y :: m) rest). rewrite Hfound. by left.
Qed.

Lemma match_on_nothing ic prev r y m rest :
  (y :: m, rest) ∈ matches ic prev r ([], []) → False.
Proof.
  intros Hs%match_splits. apply (f_equal length) in Hs.
  rewrite length_app, length_rev in Hs. simpl in Hs. lia.
Qed.

Lemma match_from_head ic prev r c s y m rest :
  (y :: m, rest) ∈ matches ic prev r ([], c :: s) →
  ∃ w, rev (y :: m) = c :: w ∧ s = w ++ rest ∧ length w = length m.
Proof.
  intros Hs%match_splits.
  destruct (rev (y :: m)) as [|c' w] eqn:Hrev.
  - apply (f_equal length) in Hrev. rewrite length_rev in Hrev. done.
  - simpl in Hs. injection Hs as -> ->. exists w. split_and!; [done..|].
    apply (f_equal length) in Hrev. rewrite length_rev in Hrev.
    simpl in Hrev. lia.
Qed.

(** The strings that [scan] returns do not overlap: together they hold no
    more characters that satisfy [p] than the text scanned. *)
Lemma scan_disjoint ic r p :
  ∀ s prev skip,
    (sum_list_with (count p) (scan ic r prev s skip)
     ≤ count p (drop skip s))%nat.
Proof.
  induction s as [|c s IH]; intros prev skip.
  - destruct skip; [|simpl; lia]. cbn [scan].
    destruct (matches ic prev r ([], [])) as [|[[|y m] rest] found] eqn:Hfound.
    + simpl. lia.
    + destruct (filter _ _) as [|[m' rest'] others] eqn:Hf; [simpl; lia|].
      apply first_consumed in Hf as [Hin Hm']. rewrite <- Hfound in Hin.
      destruct m' as [|y' m']; [done|]. by apply match_on_nothing in Hin.
    + exfalso. apply (match_on_nothing ic prev r y m rest).
      rewrite Hfound. by left.
  - destruct skip as [|k]; [|apply (IH (Some c) k)].
    assert (∀ y m rest, (y :: m, rest) ∈ matches ic prev r ([], c :: s) →
              (count p (rev (y :: m))
               + sum_list_with (count p)
                   (scan ic r (Some c) s (Nat.pred (length (y :: m))))
               ≤ count p (c :: s))%nat) as Hhit.
    { intros y m rest Hin.
      destruct (match_from_head _ _ _ _ _ _ _ _ Hin) as (w & Hrev & Hs & Hlen).
      pose proof (IH (Some c) (Nat.pred (length (y :: m)))) as Hle.
      simpl in Hle. rewrite <- Hlen, Hs, drop_app_length in Hle.
      rewrite Hrev, Hs. simpl. rewrite count_app, <- Hlen. lia. }
    assert (sum_list_with (count p) (scan ic r (Some c) s 0) ≤ count p (c :: s))%nat
      as Hmiss.
    { pose proof (IH (Some c) 0%nat) as Hle. simpl in Hle |- *.
      rewrite drop_0 in Hle. lia. }
    cbn [scan drop].
    destruct (matches ic prev r ([], c :: s)) as [|[[|y m] rest] found]
      eqn:Hfound.
    + exact Hmiss.
    + destruct (filter _ _) as [|[m' rest'] others] eqn:Hf; [exact Hmiss|].
      apply first_consumed in Hf as [Hin Hm'].
      destruct m' as [|y' m']; [done|].
      cbn [sum_list_with count]. apply (Hhit _ _ _ Hin).
    + cbn [sum_list_with].
      apply (Hhit y m rest). by left.
Qed.

(** What [findall] returns: substrings of the text that the pattern
    matches. *)
Lemma findall_sound ic r text x :
  x ∈ findall ic r text →
  ∃ pre suf prev,
    text = pre ++ x ++ suf
    ∧ (rev x, suf) ∈ matches ic prev r ([], x ++ suf).
Proof.
  intros (pre & prev & m & rest & -> & -> & Hin)%scan_sound.
  exists pre, rest, prev. by rewrite rev_involutive.
Qed.

Lemma findall_infix ic r text x :
  x ∈ findall ic r text → ∃ pre suf, text = pre ++ x ++ suf.
Proof. intros (pre & suf & _ & -> & _)%findall_sound. by exists pre, suf. Qed.

Lemma findall_least ic r p must text x :
  (∀ items c, must items = true → cls_ok ic items c = true → p c = true) →
  x ∈ findall ic r text → (least must r ≤ count p x)%nat.
Proof.
  intros Hmust (pre & suf & prev & _ & Hin)%findall_sound.
  destruct (matches_least ic prev p must r Hmust _ _ Hin) as (w & [Hw _] & Hn).
  simpl in Hw. apply app_inv_tail in Hw. by subst w.
Qed.

Lemma findall_most ic r p may k text x :
  (∀ items c, may items = false → cls_ok ic items c = true → p c = false) →
  most may r = Some k →
  x ∈ findall ic r text → (count p x ≤ k)%nat.
Proof.
  intros Hmay Hk (pre & suf & prev & _ & Hin)%findall_sound.
  destruct (matches_most ic prev p may r Hmay _ _ _ Hk Hin) as (w & [Hw _] & Hn).
  simpl in Hw. apply app_inv_tail in Hw. by subst w.
Qed.

Lemma findall_alphabet ic r text x :
  x ∈ findall ic r text →
  Forall (fun c => cls_ok ic (alphabet r) c = true) x.
Proof.
  intros (pre & suf & prev & _ & Hin)%findall_sound.
  apply matches_advances in Hin as (w & Hw & _ & Hall).
  simpl in Hw. apply app_inv_tail in Hw. by subst w.
Qed.

Lemma findall_count_le ic r p text x :
  x ∈ findall ic r text → (count p x ≤ count p text)%nat.
Proof.
  intros (pre & suf & ->)%findall_infix. rewrite !count_app. lia.
Qed.

(** With at least one such character in every match, there are no more
    matches than such characters in the text. *)
Lemma findall_length ic r p must text :
  (∀ items c, must items = true → cls_ok ic items c = true → p c = true) →
  (1 ≤ least must r)%nat →
  (length (findall ic r text) ≤ count p text)%nat.
Proof.
  intros Hmust Hone.
  pose proof (scan_disjoint ic r p text None 0) as Hsum.
  rewrite drop_0 in Hsum. fold (findall ic r text) in Hsum.
  assert (Forall (fun x => 1 ≤ count p x)%nat (findall ic r text)) as Hall.
  { apply Forall_forall. intros x Hx.
    pose proof (findall_least ic r p must text x Hmust Hx). lia. }
  clear -Hsum Hall. revert Hsum. generalize (count p text).
  induction Hall as [|x l Hx _ IH]; intros n; simpl; [lia|].
  intros Hsum. specialize (IH (n - count p x)%nat). lia.
Qed.

Lemma list_set_length (xs : list str) : (length (list_set xs) ≤ length xs)%nat.
Proof.
  apply submseteq_length, NoDup_submseteq; [apply list_set_NoDup|].
  intros x. by rewrite list_set_elem.
Qed.

Lemma cls_ok_ascii items c :
  ascii_class items = true → cls_ok false items c = true → c < 128.
Proof.
  unfold ascii_class, cls_ok. induction items as [|it items IH]; simpl; [done|].
  intros [Hit Hitems]%andb_true_iff [Hc|Hc]%orb_true_iff; [|by apply IH].
  unfold item_ok in Hc. destruct it; simpl in Hc; try done.
  - apply N.eqb_eq in Hc as ->. by apply N.ltb_lt.
  - apply andb_true_iff in Hc as [_ Hc%N.leb_le]. apply N.ltb_lt in Hit. lia.
Qed.

Lemma only_digits_ok items c :
  only_digits items = true → cls_ok false items c = true → is_digit c = true.
Proof.
  destruct items as [|[] [|? ?]]; try done. unfold cls_ok. simpl.
  by rewrite orb_false_r.
Qed.

Lemma only_char_ok x items c :
  only_char x items = true → cls_ok false items c = true → (c =? x) = true.
Proof.
  destruct items as [|[] [|? ?]]; try done. unfold cls_ok. simpl.
  rewrite orb_false_r. intros ->%N.eqb_eq. done.
Qed.

Lemma not_accepted_ok x items c :
  cls_ok false items x = false → cls_ok false items c = true →
  (c =? x) = false.
Proof.
  intros Hx Hc. destruct (c =? x) eqn:Heq; [|done].
  apply N.eqb_eq in Heq as ->. congruence.
Qed.

Lemma in_list_set (xs : list str) (v : str) : v ∈ list_set xs → v ∈ xs.
Proof. by rewrite list_set_elem. Qed.

(** ** Further claims about the extractors *)

(** X8. The extractors invent nothing: every value they return is a piece
    of the page text, cut out as it stands, and [extract_social_media] may
    in addition return an [href] of the page, unchanged. *)
Theorem extractors_return_substrings text soup_hrefs :
  let part_of_text x := ∃ pre suf, text = pre ++ x ++ suf in
  Forall part_of_text (extract_emails text)
  ∧ Forall part_of_text (extract_phone_numbers text)
  ∧ Forall part_of_text (extract_dates text)
  ∧ Forall part_of_text (extract_addresses text)
  ∧ Forall part_of_text (extract_prices text)
  ∧ Forall (fun x => part_of_text x ∨ x ∈ soup_hrefs)
           (extract_social_media text soup_hrefs).
Proof.
  intros part_of_text.
  split_and!; apply Forall_forall; intros x Hx; apply in_list_set in Hx.
  - by eapply findall_infix.
  - apply list_elem_of_bind in Hx as (pattern & Hx & _). by eapply findall_infix.
  - apply list_elem_of_bind in Hx as (pattern & Hx & _). by eapply findall_infix.
  - by eapply findall_infix.
  - by eapply findall_infix.
  - apply elem_of_app in Hx as [Hx|Hx].
    + left. apply list_elem_of_bind in Hx as (pattern & Hx & _).
      by eapply findall_infix.
    + right. by apply list_elem_of_filter in Hx as [_ Hx].
Qed.

(** X9. Every address that [extract_emails] returns holds exactly one [@],
    and only ASCII characters; the text yields no more addresses than it
    has [@] signs, so none when it has no [@]. *)
Theorem emails_have_one_at_sign text :
  let at_sign c := c =? ch "@" in
  Forall (fun x => count at_sign x = 1%nat ∧ Forall (fun c => c < 128) x)
         (extract_emails text)
  ∧ (length (extract_emails text) ≤ count at_sign text)%nat.
Proof.
  intros at_sign. split.
  - apply Forall_forall. intros x Hx%in_list_set. split.
    + pose proof (findall_least false email_pattern at_sign
                    (only_char (ch "@")) text x
                    (only_char_ok (ch "@")) Hx) as Hge.
      pose proof (findall_most false email_pattern at_sign
                    (fun items => cls_ok false items (ch "@")) 1 text x
                    (not_accepted_ok (ch "@")) eq_refl Hx) as Hle.
      change (least _ _) with 1%nat in Hge. lia.
    + apply findall_alphabet in Hx.
      eapply Forall_impl; [exact Hx|]. intros c.
      by apply cls_ok_ascii.
  - etrans; [apply list_set_length|].
    by apply (findall_length false email_pattern at_sign
                (only_char (ch "@")) text (only_char_ok (ch "@"))).
Qed.

(** X10. Every number that [extract_phone_numbers] returns holds at least
    ten digits, all of them digits of the text, and is at most 19 characters
    long: a text with fewer than ten digits yields no phone number. *)
Theorem phone_numbers_have_ten_digits text :
  Forall (fun x => (10 ≤ count is_digit x ≤ count is_digit text)%nat
                   ∧ (length x ≤ 19)%nat)
         (extract_phone_numbers text).
Proof.
  apply Forall_forall. intros x Hx%in_list_set.
  apply list_elem_of_bind in Hx as (pattern & Hx & Hp).
  pose proof (findall_least false pattern is_digit only_digits text x
                only_digits_ok Hx) as Hge.
  pose proof (findall_count_le false pattern is_digit text x Hx) as Hle.
  assert (10 ≤ least only_digits pattern
          ∧ ∃ k, most any_class pattern = Some k ∧ k ≤ 19)%nat
    as (Hten & k & Hk & Hk').
  { unfold phone_patterns in Hp.
    repeat (apply elem_of_cons in Hp as [->|Hp]);
      [..|by apply elem_of_nil in Hp];
      (split; [vm_compute; lia|eexists; split; [reflexivity|lia]]). }
  pose proof (findall_most false pattern (fun _ => true) any_class k text x
                ltac:(done) Hk Hx) as Hlen.
  rewrite count_any in Hlen. lia.
Qed.

(** X11. No extractor returns an empty string: an address returned by
    [extract_emails] has at least 6 characters, a phone number 10, a date
    10, a postal address 14, a price 2, and a social media value 1. *)
Theorem extractors_return_no_empty_string text soup_hrefs :
  Forall (fun x => 6 ≤ length x)%nat (extract_emails text)
  ∧ Forall (fun x => 10 ≤ length x)%nat (extract_phone_numbers text)
  ∧ Forall (fun x => 10 ≤ length x)%nat (extract_dates text)
  ∧ Forall (fun x => 14 ≤ length x)%nat (extract_addresses text)
  ∧ Forall (fun x => 2 ≤ length x)%nat (extract_prices text)
  ∧ Forall (fun x => 1 ≤ length x)%nat (extract_social_media text soup_hrefs).
Proof.
  assert (∀ ic pattern n x,
            (n ≤ least any_class pattern)%nat →
            x ∈ findall ic pattern text → (n ≤ length x)%nat) as Hlen.
  { intros ic pattern n x Hn Hx.
    pose proof (findall_least ic pattern (fun _ => true) any_class text x
                  ltac:(done) Hx) as Hge.
    rewrite count_any in Hge. lia. }
  split_and!; apply Forall_forall; intros x Hx; apply in_list_set in Hx.
  - apply (Hlen false email_pattern); [vm_compute; lia|done].
  - apply list_elem_of_bind in Hx as (pattern & Hx & Hp).
    apply (Hlen false pattern); [|done]. unfold phone_patterns in Hp.
    repeat (apply elem_of_cons in Hp as [->|Hp]);
      [..|by apply elem_of_nil in Hp]; vm_compute; lia.
  - apply list_elem_of_bind in Hx as (pattern & Hx & Hp).
    apply (Hlen false pattern); [|done]. unfold date_patterns in Hp.
    repeat (apply elem_of_cons in Hp as [->|Hp]);
      [..|by apply elem_of_nil in Hp]; vm_compute; lia.
  - apply (Hlen true address_pattern); [vm_compute; lia|done].
  - apply (Hlen false price_pattern); [vm_compute; lia|done].
  - apply elem_of_app in Hx as [Hx|Hx].
    + apply list_elem_of_bind in Hx as (pattern & Hx & Hp).
      apply (Hlen false pattern.2); [|done]. unfold social_patterns in Hp.
      repeat (apply elem_of_cons in Hp as [->|Hp]);
        [..|by apply elem_of_nil in Hp]; vm_compute; lia.
    + apply list_elem_of_filter in Hx as [Hx _].
      destruct x as [|c x]; [|simpl; lia]. by vm_compute in Hx.
Qed.

(** X12. A date that [extract_dates] returns holds at least five digits and
    a price that [extract_prices] returns at least one, all of them digits
    of the text, and a price holds one decimal point at most: a text
    without digits yields neither dates nor prices. *)
Theorem dates_and_prices_need_digits text :
  let point c := c =? ch "." in
  Forall (fun x => (5 ≤ count is_digit x ≤ count is_digit text)%nat)
         (extract_dates text)
  ∧ Forall (fun x => (1 ≤ count is_digit x ≤ count is_digit text)%nat
                     ∧ (count point x ≤ 1)%nat)
           (extract_prices text).
Proof.
  intros point. split; apply Forall_forall; intros x Hx%in_list_set.
  - apply list_elem_of_bind in Hx as (pattern & Hx & Hp).
    pose proof (findall_least false pattern is_digit only_digits text x
                  only_digits_ok Hx) as Hge.
    pose proof (findall_count_le false pattern is_digit text x Hx) as Hle.
    assert (5 ≤ least only_digits pattern)%nat; [|lia].
    unfold date_patterns in Hp.
    repeat (apply elem_of_cons in Hp as [->|Hp]);
      [..|by apply elem_of_nil in Hp]; vm_compute; lia.
  - pose proof (findall_least false price_pattern is_digit only_digits text x
                  only_digits_ok Hx) as Hge.
    pose proof (findall_count_le false price_pattern is_digit text x Hx) as Hle.
    pose proof (findall_most false price_pattern point
                  (fun items => cls_ok false items (ch ".")) 1 text x
                  (not_accepted_ok (ch ".")) eq_refl Hx) as Hpoint.
    change (least _ _) with 1%nat in Hge. lia.
Qed.

(** ** Properties of the text written *)

Lemma hex_value_digit n : n < 16 → hex_value (hex_digit n) = n.
Proof.
  intros Hn. unfold hex_value, hex_digit.
  destruct (N.ltb_spec n 10).
  - destruct (N.ltb_spec (48 + n) 58); lia.
  - destruct (N.ltb_spec (87 + n) 58); lia.
Qed.

Lemma unhex4_hex4 v :
  v < 65536 →
  unhex4 (hex_digit (v / 4096 mod 16)) (hex_digit (v / 256 mod 16))
         (hex_digit (v / 16 mod 16)) (hex_digit (v mod 16)) = v.
Proof.
  intros Hv. unfold unhex4.
  rewrite !hex_value_digit by (apply N.mod_lt; lia).
  zify. Z.to_euclidean_division_equations. lia.
Qed.

(** One step of [unescape] on a [\uXXXX] escape. *)
Lemma unescape_u_step a b c d tail :
  unescape (92 :: 117 :: a :: b :: c :: d :: tail)
  = let v := unhex4 a b c d in
    if (55296 <=? v) && (v <? 56320)
    then match tail with
         | _ :: _ :: a' :: b' :: c' :: d' :: tail' =>
             cons_to (65536 + (v - 55296) * 1024
                      + (unhex4 a' b' c' d' - 56320))
                     (unescape tail')
         | _ => None
         end
    else cons_to v (unescape tail).
Proof. reflexivity. Qed.

Lemma unescape_u v tail :
  v < 65536 → ¬ (55296 <= v < 56320) →
  unescape (u_escape v ++ tail) = cons_to v (unescape tail).
Proof.
  intros Hv Hs. unfold u_escape, hex4. cbn [app].
  rewrite unescape_u_step, unhex4_hex4 by done. cbn zeta.
  destruct (N.leb_spec 55296 v), (N.ltb_spec v 56320); simpl; try done. lia.
Qed.

Lemma unescape_pair hi lo tail :
  55296 <= hi < 56320 → lo < 65536 →
  unescape (u_escape hi ++ u_escape lo ++ tail)
  = cons_to (65536 + (hi - 55296) * 1024 + (lo - 56320)) (unescape tail).
Proof.
  intros Hhi Hlo. unfold u_escape, hex4. cbn [app].
  rewrite unescape_u_step, !unhex4_hex4 by lia. cbn zeta.
  destruct (N.leb_spec 55296 hi), (N.ltb_spec hi 56320); simpl; try done; lia.
Qed.

Lemma unescape_escape c tail :
  scalar c → unescape (escape c ++ tail) = cons_to c (unescape tail).
Proof.
  clear ucd urlparse urljoin requests_get.
  intros Hc. unfold escape.
  destruct (N.eqb_spec c 34) as [->|H34]; [done|].
  destruct (N.eqb_spec c 92) as [->|H92]; [done|].
  destruct (N.eqb_spec c 8) as [->|?]; [done|].
  destruct (N.eqb_spec c 12) as [->|?]; [done|].
  destruct (N.eqb_spec c 10) as [->|?]; [done|].
  destruct (N.eqb_spec c 13) as [->|?]; [done|].
  destruct (N.eqb_spec c 9) as [->|?]; [done|].
  destruct (_ && _) eqn:Hplain.
  - cbn [app unescape].
    destruct (N.eqb_spec c 34); [done|]. by destruct (N.eqb_spec c 92).
  - destruct (N.ltb_spec c 65536) as [Hlt|Hge].
    + apply unescape_u; [done|]. unfold scalar in Hc. lia.
    + rewrite <- app_assoc, unescape_pair.
      * f_equal. unfold scalar in Hc. zify.
        Z.to_euclidean_division_equations. lia.
      * unfold scalar in Hc. zify. Z.to_euclidean_division_equations. lia.
      * zify. Z.to_euclidean_division_equations. lia.
Qed.

Lemma unescape_string s rest :
  Forall scalar s → unescape ((c ← s; escape c) ++ 34 :: rest) = Some (s, rest).
Proof.
  induction 1 as [|c s Hc _ IH]; [done|].
  rewrite bind_cons, <- app_assoc, unescape_escape by done. by rewrite IH.
Qed.

Lemma json_string_inj s1 s2 rest1 rest2 :
  Forall scalar s1 → Forall scalar s2 →
  json_string s1 ++ rest1 = json_string s2 ++ rest2 →
  s1 = s2 ∧ rest1 = rest2.
Proof.
  intros H1 H2. unfold json_string. cbn [app]. rewrite <- !app_assoc.
  cbn [app]. intros [= Heq]. apply (f_equal unescape) in Heq.
  rewrite !unescape_string in Heq by done. by injection Heq.
Qed.

Lemma json_items_inj (sep : str) l1 :
  ∀ l2 rest1 rest2,
    Forall (Forall scalar) l1 → Forall (Forall scalar) l2 →
    l1 ≠ [] → l2 ≠ [] →
    join (44 :: sep) (map json_string l1) ++ 10 :: rest1
    = join (44 :: sep) (map json_string l2) ++ 10 :: rest2 →
    l1 = l2 ∧ rest1 = rest2.
Proof.
  induction l1 as [|x l1 IH]; intros l2 rest1 rest2 H1 H2 Hne1 Hne2; [done|].
  destruct l2 as [|y l2]; [done|].
  apply Forall_cons in H1 as [Hx H1]. apply Forall_cons in H2 as [Hy H2].
  destruct l1 as [|x' l1], l2 as [|y' l2]; cbn [map join];
    rewrite <- ?app_assoc; intros Heq;
    apply json_string_inj in Heq as [-> Heq]; try done.
  - by injection Heq as ->.
  - cbn [app] in Heq. injection Heq as Heq.
    change (sep ++ join (44 :: sep) (json_string x' :: map json_string l1)
            ++ 10 :: rest1)
      with (sep ++ join (44 :: sep) (map json_string (x' :: l1))
            ++ 10 :: rest1) in Heq.
    change (sep ++ join (44 :: sep) (json_string y' :: map json_string l2)
            ++ 10 :: rest2)
      with (sep ++ join (44 :: sep) (map json_string (y' :: l2))
            ++ 10 :: rest2) in Heq.
    apply app_inv_head in Heq.
    destruct (IH _ _ _ H1 H2 ltac:(done) ltac:(done) Heq) as [-> ->]. done.
Qed.

Lemma join_cons (sep x : str) (l : list str) :
  l ≠ [] → join sep (x :: l) = x ++ sep ++ join sep l.
Proof. by destruct l. Qed.

Lemma json_block_inj (pre sep post : str) l1 l2 rest1 rest2 :
  Forall (Forall scalar) l1 → Forall (Forall scalar) l2 →
  l1 ≠ [] → l2 ≠ [] →
  (pre ++ join (44 :: sep) (map json_string l1) ++ 10 :: post) ++ rest1
  = (pre ++ join (44 :: sep) (map json_string l2) ++ 10 :: post) ++ rest2 →
  l1 = l2 ∧ rest1 = rest2.
Proof.
  intros H1 H2 Hne1 Hne2 Heq.
  rewrite <- !app_assoc in Heq. apply app_inv_head in Heq.
  rewrite <- !app_comm_cons in Heq.
  apply json_items_inj in Heq as [Hl Hrest]; try done.
  split; [done|]. by apply app_inv_head in Hrest.
Qed.

Lemma json_list_inj l1 l2 rest1 rest2 :
  Forall (Forall scalar) l1 → Forall (Forall scalar) l2 →
  json_list l1 ++ rest1 = json_list l2 ++ rest2 →
  l1 = l2 ∧ rest1 = rest2.
Proof.
  intros H1 H2. destruct l1 as [|x l1], l2 as [|y l2].
  - intros Heq%app_inv_head. done.
  - intros Heq. apply (f_equal (fun s => s !! 1%nat)) in Heq. discriminate Heq.
  - intros Heq. apply (f_equal (fun s => s !! 1%nat)) in Heq. discriminate Heq.
  - intros Heq.
    by apply (json_block_inj (91 :: 10 :: lit "    ") (10 :: lit "    ")
                (lit "  ]") (x :: l1) (y :: l2) rest1 rest2).
Qed.

Lemma json_entries_inj (key : Category → str) (colon sep : str)
    (r1 r2 : Category → list str) (ks : list Category) :
  (∀ k, Forall (Forall scalar) (r1 k)) →
  (∀ k, Forall (Forall scalar) (r2 k)) →
  ∀ rest1 rest2, ks ≠ [] →
    join (44 :: sep) (map (fun k => key k ++ colon ++ json_list (r1 k)) ks)
      ++ 10 :: rest1
    = join (44 :: sep) (map (fun k => key k ++ colon ++ json_list (r2 k)) ks)
      ++ 10 :: rest2 →
    Forall (fun k => r1 k = r2 k) ks ∧ rest1 = rest2.
Proof.
  intros H1 H2. induction ks as [|k ks IH]; intros rest1 rest2 Hne; [done|].
  destruct ks as [|k' ks].
  - cbn [map join]. rewrite <- !app_assoc. intros Heq.
    do 2 apply app_inv_head in Heq.
    apply json_list_inj in Heq as [Hk Heq]; try done.
    injection Heq as ->. split; [|done]. by constructor.
  - remember (k' :: ks) as tl eqn:Htl.
    assert (tl ≠ []) as Htlne by (by subst tl).
    cbn [map]. rewrite !join_cons by (by destruct tl).
    rewrite <- !app_assoc. intros Heq.
    do 2 apply app_inv_head in Heq.
    apply json_list_inj in Heq as [Hk Heq]; try done.
    apply app_inv_head in Heq.
    destruct (IH rest1 rest2 Htlne Heq) as [Hks ->].
    split; [|done]. by constructor.
Qed.

Lemma hex_digit_printable n : n < 16 → printable (hex_digit n) = true.
Proof.
  intros Hn. unfold printable, hex_digit.
  apply andb_true_iff. destruct (N.ltb_spec n 10); split; apply N.leb_le; lia.
Qed.

Lemma u_escape_printable v : forallb printable (u_escape v) = true.
Proof.
  unfold u_escape, hex4. cbn [forallb].
  rewrite !hex_digit_printable by (apply N.mod_lt; lia). done.
Qed.

Lemma escape_printable c : forallb printable (escape c) = true.
Proof.
  unfold escape.
  repeat (match goal with
          | |- context [if ?c =? ?k then _ else _] =>
              destruct (N.eqb_spec c k); [done|]
          end).
  destruct (_ && _) eqn:Hplain.
  - cbn [forallb]. unfold printable. by rewrite Hplain.
  - destruct (c <? 65536); [apply u_escape_printable|].
    by rewrite forallb_app, !u_escape_printable.
Qed.

Lemma json_string_printable s : forallb printable (json_string s) = true.
Proof.
  unfold json_string. cbn [forallb]. rewrite forallb_app. cbn [forallb andb].
  rewrite andb_true_r. change (printable 34) with true. cbn [andb].
  induction s as [|c s IH]; [done|].
  by rewrite bind_cons, forallb_app, escape_printable, IH.
Qed.

Lemma printable_plain s : forallb printable s = true → forallb plain s = true.
Proof.
  rewrite !forallb_forall. intros Hs c Hc. unfold plain.
  by rewrite (Hs c Hc), orb_true_r.
Qed.

Lemma printable_one_line s :
  forallb printable s = true → count line_feed s = 0%nat.
Proof.
  induction s as [|c s IH]; [done|]. cbn [forallb count].
  intros [Hc Hs]%andb_true_iff. rewrite (IH Hs).
  unfold printable in Hc. unfold line_feed.
  destruct (N.eqb_spec c 10) as [->|_]; [discriminate Hc|done].
Qed.

Lemma join_plain sep parts :
  forallb plain sep = true →
  Forall (fun part => forallb plain part = true) parts →
  forallb plain (join sep parts) = true.
Proof.
  intros Hsep. induction 1 as [|part parts Hpart Hparts IH]; [done|].
  destruct parts as [|part' parts]; [done|]. rewrite join_cons by done.
  by rewrite !forallb_app, Hpart, Hsep, IH.
Qed.

Lemma json_list_plain values : forallb plain (json_list values) = true.
Proof.
  destruct values as [|v values]; [reflexivity|].
  change (json_list (v :: values))
    with ((91 :: 10 :: lit "    ")
          ++ join (44 :: 10 :: lit "    ") (map json_string (v :: values))
          ++ (10 :: lit "  ]")).
  rewrite !forallb_app.
  rewrite join_plain; [reflexivity|reflexivity|].
  apply Forall_forall. intros part (s & -> & _)%list_elem_of_fmap.
  apply printable_plain, json_string_printable.
Qed.

Lemma json_dumps_plain r : forallb plain (json_dumps r) = true.
Proof.
  change (json_dumps r)
    with ((123 :: 10 :: lit "  ")
          ++ join (44 :: 10 :: lit "  ") (map (json_entry r) categories)
          ++ (10 :: lit "}")).
  rewrite !forallb_app.
  rewrite join_plain; [reflexivity|reflexivity|].
  apply Forall_forall. intros part (k & -> & _)%list_elem_of_fmap.
  unfold json_entry.
  rewrite !forallb_app, (printable_plain _ (json_string_printable _)),
    json_list_plain.
  reflexivity.
Qed.

Lemma count_join p sep parts :
  count p (join sep parts)
  = (sum_list (map (count p) parts) + (length parts - 1) * count p sep)%nat.
Proof.
  induction parts as [|x parts IH]; [done|].
  destruct parts as [|y parts]; [simpl; lia|].
  rewrite join_cons, !count_app, IH by done. simpl. lia.
Qed.

Lemma json_list_lines values :
  count line_feed (json_list values)
  = match values with [] => 0%nat | _ :: _ => S (length values) end.
Proof.
  destruct values as [|v values]; [reflexivity|].
  change (json_list (v :: values))
    with ((91 :: 10 :: lit "    ")
          ++ join (44 :: 10 :: lit "    ") (map json_string (v :: values))
          ++ (10 :: lit "  ]")).
  rewrite !count_app, count_join, length_map.
  change (count line_feed (91 :: 10 :: lit "    ")) with 1%nat.
  change (count line_feed (44 :: 10 :: lit "    ")) with 1%nat.
  change (count line_feed (10 :: lit "  ]")) with 1%nat.
  assert (∀ l, sum_list (map (count line_feed) (map json_string l)) = 0%nat)
    as ->.
  { induction l as [|s l IH]; [done|]. cbn [map sum_list sum_list_with].
    change (sum_list_with id ?l) with (sum_list l). rewrite IH.
    by rewrite (printable_one_line _ (json_string_printable s)). }
  simpl. lia.
Qed.


Lemma scalar_below (l : list str) :
  forallb (forallb (fun c => c <? 55296)) l = true → Forall (Forall scalar) l.
Proof.
  rewrite forallb_forall. intros Hl. apply Forall_forall. intros s Hs.
  apply list_elem_of_In, Hl in Hs. rewrite forallb_forall in Hs.
  apply Forall_forall. intros c Hc. left.
  by apply N.ltb_lt, Hs, list_elem_of_In.
Qed.

(** X14. Nothing is lost in the text written: two dictionaries of strings
    without surrogate code points that give the same text hold the same
    lists, values with quotes, backslashes, line feeds or characters beyond
    ASCII included. *)
Theorem saved_text_determines_results (r1 r2 : Category → list str) :
  (∀ k, Forall (Forall scalar) (r1 k)) →
  (∀ k, Forall (Forall scalar) (r2 k)) →
  json_dumps r1 = json_dumps r2 → ∀ k, r1 k = r2 k.
Proof.
  intros H1 H2 Heq k.
  assert (Hshape : ∀ r, json_dumps r
    = (123 :: 10 :: lit "  ")
      ++ join (44 :: 10 :: lit "  ")
           (map (fun k => json_string (lit (key_name k)) ++ lit ": "
                          ++ json_list (r k)) categories)
      ++ 10 :: lit "}") by reflexivity.
  rewrite !Hshape in Heq. apply app_inv_head in Heq.
  apply json_entries_inj in Heq as [Hall _]; [|done..].
  rewrite Forall_forall in Hall. apply Hall.
  unfold categories. destruct k; repeat constructor.
Qed.

(** X15. The text written has one line for each brace, one for each empty
    category, and for each other category one line for its key, one for
    each of its values and one for the closing bracket: a value never spans
    two lines, whatever it holds. *)
Theorem one_value_per_line (r : Category → list str) :
  count line_feed (json_dumps r)
  = (8 + sum_list (map (fun k => match r k with
                                   | [] => 0
                                   | _ :: _ => S (length (r k))
                                   end) categories))%nat.
Proof.
  change (json_dumps r)
    with ((123 :: 10 :: lit "  ")
          ++ join (44 :: 10 :: lit "  ") (map (json_entry r) categories)
          ++ (10 :: lit "}")).
  rewrite !count_app, count_join, length_map, map_map.
  change (count line_feed (123 :: 10 :: lit "  ")) with 1%nat.
  change (count line_feed (44 :: 10 :: lit "  ")) with 1%nat.
  change (count line_feed (10 :: lit "}")) with 1%nat.
  change (length categories) with 7%nat.
  assert (∀ k, count line_feed (json_entry r k)
               = match r k with [] => 0 | _ :: _ => S (length (r k)) end)%nat
    as Hentry.
  { intros k. unfold json_entry.
    rewrite !count_app, (printable_one_line _ (json_string_printable _)),
      json_list_lines.
    by destruct (r k). }
  rewrite (map_ext _ _ Hentry). simpl Nat.sub. lia.
Qed.

End WebScraper.

(** ** The claim about failed requests *)

Section FailedRequests.

Variable ucd : UnicodeData.
Variable urlparse : str → result ParseResult.
Variable urljoin : str → str → result str.

(** [requests.get], which raises on a timeout or a failed connection. *)
Variable get : nat → str → Z → result Response.

Local Abbreviation crawl_page :=
  (scrape_page ucd urlparse urljoin (get_page get)).


End FailedRequests.

(** ** The program on the sample web *)

Local Abbreviation run table :=
  (scrape Sample.ascii_only Sample.urlparse Sample.urljoin
     (Sample.serve table)).

Local Abbreviation visit table :=
  (scrape_page Sample.ascii_only Sample.urlparse Sample.urljoin
     (Sample.serve table)).

Local Abbreviation started md mp seed :=
  (logger INFO (lit "Starting scrape from: " ++ seed) (new md mp 30)).

(** C1 on the code: [WebScraper(max_depth=2, max_pages=2)] on a home page
    with two links. The test on [max_pages] is made once, before the loop
    over the links of the home page, and is not part of the guard of
    [scrape_page]: the second link is requested although two URLs are
    already visited, and the visited set ends with three. *)
Theorem page_limit_exceeded_by_siblings :
  let st := (run Sample.two_links (new 2 2 30) Sample.home).1 in
  max_pages st = 2%Z
  ∧ size (visited_urls st) = 3%nat
  ∧ fetched st
    = [(Sample.home, 0%Z); (Sample.page_a, 1%Z); (Sample.page_b, 1%Z)].
Proof. vm_compute. done. Qed.

(** C5 on the code. The loop that removes duplicates runs over the seven
    categories, [urls] included, and leaves each of them without a repeated
    value; merging the same page again changes no category as a set; and the
    six categories that only the extractors fill hold no value twice at the
    end of any crawl. But the links of a page are appended to [urls] after
    that loop: with [WebScraper(max_depth=1, max_pages=2)] on a home page
    that carries the same link twice, the crawl returns [urls] with that
    link twice. *)
Theorem urls_keeps_repeated_links :
  (∀ ucd page r k, NoDup (extract ucd page r k))
  ∧ (∀ ucd page r k v,
       v ∈ extract ucd page (extract ucd page r) k ↔ v ∈ extract ucd page r k)
  ∧ (∀ ucd urlparse urljoin requests_get md mp t seeds k,
       k ≠ urls →
       NoDup (results (crawls ucd urlparse urljoin requests_get
                         (new md mp t) seeds) k))
  ∧ (run Sample.repeated_link (new 1 2 30) Sample.home).2 urls
    = [Sample.page_a; Sample.page_a].
Proof.
  split_and!.
  - intros. apply extract_NoDup.
  - intros. apply extract_twice.
  - intros. by apply crawls_extracted_once.
  - vm_compute. done.
Qed.

(** C2 as stated fails: with [max_pages = 1] the home page is requested,
    its ten links resolve to valid URLs, and none of them reaches [urls]. *)
Lemma links_dropped_at_page_limit :
  let st := (run Sample.ten_links (new 3 1 30) Sample.home).1 in
  fetched st = [(Sample.home, 0%Z)]
  ∧ Sample.serve Sample.ten_links 0 Sample.home 30
    = Returns {| text := []; hrefs := Sample.ten |}
  ∧ Sample.urljoin Sample.home (lit "http://x.com/0")
    = Returns (lit "http://x.com/0")
  ∧ is_valid_url Sample.urlparse (lit "http://x.com/0") = true
  ∧ lit "http://x.com/0" ∈ Sample.ten
  ∧ ¬ lit "http://x.com/0" ∈ results st urls.
Proof.
  split_and!; try (vm_compute; done).
  - by left.
  - replace (results _ urls) with (@nil (list N)) by (vm_compute; done).
    apply not_elem_of_nil.
Qed.

Lemma links_recorded_while_pages_remain_witness :
  (is_valid_url Sample.urlparse Sample.home = true
   ∧ lit "http://x.com/9" ∈
       results (visit Sample.ten_links (started 3 100 Sample.home)
                  Sample.home 0) urls)
  ∧ fetched (visit Sample.ten_links (started 3 1 Sample.home) Sample.home 0)
    = [(Sample.home, 0%Z)].
Proof.
  split; [split; [vm_compute; done|]|].
  - refine (proj1
      (links_recorded_while_pages_remain Sample.ascii_only Sample.urlparse
         Sample.urljoin (Sample.serve Sample.ten_links)
         (started 3 100 Sample.home) Sample.home 0
         {| text := []; hrefs := Sample.ten |} _ _ _ _) _
      (take 9 Sample.ten) (lit "http://x.com/9") [] (lit "http://x.com/9")
      _ _ _ _);
      try (vm_compute; done).
    intros h _. by exists h.
  - refine (proj1 (proj2
      (links_recorded_while_pages_remain Sample.ascii_only Sample.urlparse
         Sample.urljoin (Sample.serve Sample.ten_links)
         (started 3 1 Sample.home) Sample.home 0
         {| text := []; hrefs := Sample.ten |} _ _ _ _) _));
      vm_compute; done.
Defined.

(** C3 as stated fails: with [max_depth = 0] the valid seed is not
    requested. *)
Lemma seed_not_fetched_at_depth_zero :
  let st := (run Sample.ten_links (new 0 100 30) Sample.home).1 in
  is_valid_url Sample.urlparse Sample.home = true
  ∧ max_depth st = 0%Z
  ∧ ¬ (Sample.home, 0%Z) ∈ fetched st.
Proof.
  split_and!; try (vm_compute; done).
  replace (fetched _) with (@nil (list N * Z)) by (vm_compute; done).
  apply not_elem_of_nil.
Qed.

Lemma seed_fetched_only_from_depth_one_witness :
  is_valid_url Sample.urlparse Sample.home = true
  ∧ fetched (run Sample.ten_links (new 1 100 30) Sample.home).1
    = [(Sample.home, 0%Z)]
  ∧ (run Sample.ten_links (new 1 100 30) Sample.home).2 urls = Sample.ten.
Proof.
  assert (is_valid_url Sample.urlparse Sample.home = true) as Hval
    by (vm_compute; done).
  destruct (seed_fetched_only_from_depth_one Sample.ascii_only
              Sample.urlparse Sample.urljoin (Sample.serve Sample.ten_links)
              100 30 Sample.home) as (_ & Hfetched & Hurls).
  split_and!; [done|by apply Hfetched|].
  rewrite (Hurls Hval ltac:(lia) {| text := []; hrefs := Sample.ten |}
             Sample.ten eq_refl).
  - vm_compute. done.
  - unfold Sample.ten, Sample.urljoin. simpl. repeat constructor.
Defined.

Lemma invalid_seed_gives_empty_results_witness :
  Sample.urlparse (lit "ftp://x.com")
  = Returns {| scheme := lit "ftp"; netloc := lit "x.com" |}
  ∧ is_valid_url Sample.urlparse (lit "ftp://x.com") = false
  ∧ fetched (run Sample.ten_links (new 2 100 30) (lit "ftp://x.com")).1 = []
  ∧ map (run Sample.ten_links (new 2 100 30) (lit "ftp://x.com")).2 categories
    = [[]; []; []; []; []; []; []].
Proof.
  destruct (invalid_seed_gives_empty_results Sample.ascii_only Sample.urlparse
              Sample.urljoin (Sample.serve Sample.ten_links) 2 100 30
              (lit "ftp://x.com")) as (Hval & Hf & _ & Hr & _).
  { vm_compute. left. split; discriminate. }
  split_and!; [vm_compute; done|done|done|].
  unfold categories. cbn [map]. by rewrite !Hr.
Defined.



Lemma no_fetch_at_max_depth_witness :
  (2 >= max_depth (started 2 100 Sample.home))%Z
  ∧ visit Sample.two_links (started 2 100 Sample.home) Sample.page_a 2
    = started 2 100 Sample.home.
Proof.
  assert (2 >= max_depth (started 2 100 Sample.home))%Z as H by (simpl; lia).
  split; [done|].
  exact (proj1 (no_fetch_at_max_depth Sample.ascii_only Sample.urlparse
                  Sample.urljoin (Sample.serve Sample.two_links)
                  (started 2 100 Sample.home) Sample.page_a 2) H).
Defined.

(** X6 on a home page whose second link [urljoin] rejects: the first link is
    recorded and fetched, the third is neither. *)
Lemma bad_link_ends_the_page_witness :
  let st :=
    scrape_page Sample.ascii_only Sample.urlparse Sample.strict_urljoin
      (Sample.serve Sample.bad_link) (started 2 100 Sample.home)
      Sample.home 0 in
  Sample.strict_urljoin Sample.home Sample.bad_href
  = Raises (lit "Invalid IPv6 URL")
  ∧ fetched st = [(Sample.home, 0%Z); (Sample.page_a, 1%Z)]
  ∧ results st urls = [Sample.page_a]
  ∧ last (log st)
    = Some (ERROR, lit "Error scraping http://x.com: Invalid IPv6 URL").
Proof.
  cbn zeta.
  rewrite (bad_link_ends_the_page Sample.ascii_only Sample.urlparse
             Sample.strict_urljoin (Sample.serve Sample.bad_link)
             (started 2 100 Sample.home) Sample.home 0
             {| text := []; hrefs := [Sample.page_a; Sample.bad_href; Sample.page_b] |}
             [Sample.page_a] Sample.bad_href [Sample.page_b]
             (lit "Invalid IPv6 URL")).
  - vm_compute. done.
  - vm_compute. done.
  - simpl. lia.
  - apply not_elem_of_empty.
  - vm_compute. done.
  - vm_compute. done.
  - reflexivity.
  - intros h ->%list_elem_of_singleton. eexists. vm_compute. reflexivity.
  - vm_compute. done.
Defined.

(** X7 with [max_pages = 1] on the home page with ten links. *)
Lemma page_budget_spent_witness :
  let st := started 3 1 Sample.home in
  (max_pages st ≤ Z.of_nat (size (visited_urls st)) + 1)%Z
  ∧ ∀ v, v ∈ results (visit Sample.ten_links st Sample.home 0) urls
         ↔ v ∈ results st urls.
Proof.
  cbn zeta.
  assert (max_pages (started 3 1 Sample.home)
          ≤ Z.of_nat (size (visited_urls (started 3 1 Sample.home))) + 1)%Z
    as H by (vm_compute; discriminate).
  split; [done|].
  exact (proj2 (page_budget_spent Sample.ascii_only Sample.urlparse
                  Sample.urljoin (Sample.serve Sample.ten_links)
                  (started 3 1 Sample.home) Sample.home 0 H)).
Defined.


(** X14: the text written for that crawl is the text of the dictionary
    below, so the crawl returned that dictionary. *)
Lemma saved_text_determines_results_witness :
  let crawled := (run Sample.contact (new 2 100 30) Sample.home).2 in
  let expected k :=
    match k with
    | emails => [lit "bob@x.org"]
    | social_media => [lit "@x"]
    | dates => [lit "2024-01-31"]
    | _ => []
    end in
  json_dumps crawled = json_dumps expected ∧ ∀ k, crawled k = expected k.
Proof.
  cbn zeta.
  assert (json_dumps (run Sample.contact (new 2 100 30) Sample.home).2
          = json_dumps (fun k => match k with
                                 | emails => [lit "bob@x.org"]
                                 | social_media => [lit "@x"]
                                 | dates => [lit "2024-01-31"]
                                 | _ => []
                                 end)) as Heq by (vm_compute; reflexivity).
  split; [exact Heq|].
  refine (saved_text_determines_results _ _ _ _ Heq).
  - intros k. apply scalar_below. destruct k; vm_compute; reflexivity.
  - intros k. apply scalar_below. destruct k; vm_compute; reflexivity.
Defined.
